(** * Isserlis.py: partitions of a set into pairs

    A shallow embedding of [src/Isserlis.py]: the generator [isserlis], which
    filters the permutations of [range(len(set_))] by the nested predicate
    [test]; [isserlis_stationary], which turns every partition into its tuple
    of lag counts; [isserlis_stationary_analytical], which labels tokens by
    [2**k-1]; [counts], which tallies the shapes; [beautiful_print], which
    prints one term per shape; and the statements that chain them.

    Python exceptions are values of [exn]; an expression that may raise is a
    [result]; a generator is the finite trace [gen] of what it yields, ended
    by exhaustion ([Stop]) or by an exception that escapes it ([Throw]). *)

From stdpp Require Import gmap strings pretty.
From Stdlib Require Import List Arith ZArith Lia Bool Permutation FinFun.
Import ListNotations.

(** ** Exceptions, results, generators *)

Inductive exn : Type := ValueError | IndexError | KeyError | TypeError.

Inductive result (A : Type) : Type :=
| Ok (a : A)
| Raise (e : exn).
Arguments Ok {A} a.
Arguments Raise {A} e.

Definition bind {A B : Type} (r : result A) (k : A -> result B) : result B :=
  match r with
  | Ok a => k a
  | Raise e => Raise e
  end.

Notation "'let*' x ':=' r 'in' k" := (bind r (fun x => k))
  (at level 10, x name, r at level 100, k at level 200).

(** [[f x for x in l]]: the comprehension stops at the first exception. *)
Fixpoint mapM {A B : Type} (f : A -> result B) (l : list A) : result (list B) :=
  match l with
  | [] => Ok []
  | x :: l' => let* y := f x in let* ys := mapM f l' in Ok (y :: ys)
  end.

(** A [for] loop that updates an accumulator and may raise. *)
Fixpoint foldM {A S : Type} (f : S -> A -> result S) (l : list A) (s : S)
    : result S :=
  match l with
  | [] => Ok s
  | x :: l' => let* s' := f s x in foldM f l' s'
  end.

Inductive gen (A : Type) : Type :=
| Stop
| Yield (a : A) (rest : gen A)
| Throw (e : exn).
Arguments Stop {A}.
Arguments Yield {A} a rest.
Arguments Throw {A} e.

(** What a consumer ([for el in g], [list(g)]) receives before the end. *)
Fixpoint yields {A : Type} (g : gen A) : list A :=
  match g with
  | Stop => []
  | Yield a g' => a :: yields g'
  | Throw _ => []
  end.

(** How the iteration ends: [None] on exhaustion, [Some e] when [e] escapes. *)
Fixpoint outcome {A : Type} (g : gen A) : option exn :=
  match g with
  | Stop => None
  | Yield _ g' => outcome g'
  | Throw e => Some e
  end.

(** ** Python built-ins used by the script *)

(** [t.index(v)] on a tuple of ints: first position of [v], else ValueError. *)
Fixpoint index (t : list nat) (v : nat) : result nat :=
  match t with
  | [] => Raise ValueError
  | x :: t' => if x =? v then Ok 0 else let* k := index t' v in Ok (S k)
  end.

(** [l[k]] for a non-negative [k]: IndexError out of range. *)
Definition getitem {A : Type} (l : list A) (k : nat) : result A :=
  match nth_error l k with
  | Some a => Ok a
  | None => Raise IndexError
  end.

(** [range(n)] and [range(0, n, 2)]. *)
Definition range (n : nat) : list nat := seq 0 n.
Definition range_step2 (n : nat) : list nat := filter Nat.even (seq 0 n).

(** [itertools.permutations(iterable)]: all orderings, in lexicographic order
    of the positions of the input. [selections l] lists every way to pick a
    first element, with what is left, in input order. *)
Fixpoint selections {A : Type} (l : list A) : list (A * list A) :=
  match l with
  | [] => []
  | x :: r => (x, r) :: map (fun yr => (fst yr, x :: snd yr)) (selections r)
  end.

Fixpoint permutations_n {A : Type} (n : nat) (l : list A) : list (list A) :=
  match n with
  | 0 => [[]]
  | S n' =>
      flat_map (fun xr => map (cons (fst xr)) (permutations_n n' (snd xr)))
               (selections l)
  end.

Definition permutations {A : Type} (l : list A) : list (list A) :=
  permutations_n (length l) l.

(** ** [isserlis] *)

(** The body of the [for j in range(0, n_els, 2)] loop of [test], with the
    cursor [i]; [or] is short-circuit, so [t.index(j+1)] is only evaluated
    when [temp < i] is false. *)
Fixpoint test_loop (t : list nat) (js : list nat) (i : nat) : result bool :=
  match js with
  | [] => Ok true
  | j :: js' =>
      let* temp := index t j in
      if temp <? i then Ok false
      else
        let* k := index t (j + 1) in
        if k <? temp then Ok false else test_loop t js' temp
  end.

Definition test (n_els : nat) (t : list nat) : result bool :=
  let* i := index t 0 in
  test_loop t (range_step2 n_els) i.

(** [[set_[p.index(i)] for i in range(n_elements)]] *)
Definition rearrange {A : Type} (set_ : list A) (n_elements : nat)
    (p : list nat) : result (list A) :=
  mapM (fun i => let* k := index p i in getitem set_ k) (range n_elements).

(** The [for p in permutations(...)] loop over the permutations still to come. *)
Fixpoint isserlis_loop {A : Type} (set_ : list A) (n_elements : nat)
    (ps : list (list nat)) : gen (list A) :=
  match ps with
  | [] => Stop
  | p :: ps' =>
      match test n_elements p with
      | Raise e => Throw e
      | Ok false => isserlis_loop set_ n_elements ps'
      | Ok true =>
          match rearrange set_ n_elements p with
          | Raise e => Throw e
          | Ok el => Yield el (isserlis_loop set_ n_elements ps')
          end
      end
  end.

Definition isserlis {A : Type} (set_ : list A) : gen (list A) :=
  let n_elements := length set_ in
  isserlis_loop set_ n_elements (permutations (range n_elements)).

(** ** [isserlis_stationary] *)

(** [max(l)] on a list of ints: ValueError on the empty list. *)
Definition max_list (l : list Z) : result Z :=
  match l with
  | [] => Raise ValueError
  | x :: l' => Ok (fold_left Z.max l' x)
  end.

(** [l.count(i)] *)
Definition count (l : list Z) (i : Z) : nat :=
  length (filter (Z.eqb i) l).

(** [range(m)] for an int [m]: empty when [m <= 0]. *)
Definition rangeZ (m : Z) : list Z :=
  map Z.of_nat (seq 0 (Z.to_nat m)).

(** [[abs(el[j+1]-el[j]) for j in range(0, n_elements, 2)]] *)
Definition lags (n_elements : nat) (el : list Z) : result (list Z) :=
  mapM (fun j => let* a := getitem el (j + 1) in
                 let* b := getitem el j in
                 Ok (Z.abs (a - b)))
       (range_step2 n_elements).

(** [tuple([l.count(i) for i in range(max(l)+1)])] *)
Definition shape_of (n_elements : nat) (el : list Z) : result (list nat) :=
  let* l := lags n_elements el in
  let* m := max_list l in
  Ok (map (count l) (rangeZ (m + 1))).

Fixpoint isserlis_stationary_loop (n_elements : nat) (g : gen (list Z))
    : gen (list nat) :=
  match g with
  | Stop => Stop
  | Throw e => Throw e
  | Yield el g' =>
      match shape_of n_elements el with
      | Raise e => Throw e
      | Ok s => Yield s (isserlis_stationary_loop n_elements g')
      end
  end.

Definition isserlis_stationary (set_ : list Z) : gen (list nat) :=
  let n_elements := length set_ in
  isserlis_stationary_loop n_elements (isserlis set_).

(** ** [isserlis_stationary_analytical] *)

(** [enumerate(l)] *)
Definition enumerate {A : Type} (l : list A) : list (nat * A) :=
  combine (seq 0 (length l)) l.

(** [{el: 2**k-1 for k, el in enumerate(set_elements)}]: the entries are
    inserted in order, a later entry for the same key replacing the earlier. *)
Definition correspondances_from (d : gmap string Z) (kels : list (nat * string))
    : gmap string Z :=
  fold_left (fun d kel => <[snd kel := (2 ^ Z.of_nat (fst kel) - 1)%Z]> d) kels d.

(** [d[k]]: KeyError when the key is absent. *)
Definition dict_get (d : gmap string Z) (k : string) : result Z :=
  match d !! k with
  | Some v => Ok v
  | None => Raise KeyError
  end.

(** [set_elements] stands for [set(set_)] in the order Python iterates it.
    That order depends on the hashes of the strings and is not the order of
    first occurrence, so it is an argument here; the properties below only
    assume that it lists every distinct element of [set_] once. *)
Definition isserlis_stationary_analytical (set_elements : list string)
    (set_ : list string) : result (list Z * gen (list nat)) :=
  let correspondances := correspondances_from ∅ (enumerate set_elements) in
  let* set_to_numbers := mapM (dict_get correspondances) set_ in
  Ok (set_to_numbers, isserlis_stationary set_to_numbers).

(** ** A run of [isserlis] over a store of list objects *)

(** To speak of the input being left unchanged, lists live in a store: a
    reference [loc] names a list object, the input is read through its
    reference each time the script reads it, and every yielded list (a list
    comprehension) is a new object at a fresh reference. A run from a store
    where the input reference is unbound has no result. *)
Definition loc := nat.

Fixpoint isserlis_run_loop {A : Type} (h : gmap loc (list A)) (r : loc)
    (n_elements : nat) (ps : list (list nat))
    : option (gmap loc (list A) * gen loc) :=
  match ps with
  | [] => Some (h, Stop)
  | p :: ps' =>
      match test n_elements p with
      | Raise e => Some (h, Throw e)
      | Ok false => isserlis_run_loop h r n_elements ps'
      | Ok true =>
          match h !! r with
          | None => None
          | Some set_ =>
              match rearrange set_ n_elements p with
              | Raise e => Some (h, Throw e)
              | Ok el =>
                  let l := fresh (dom h) in
                  match isserlis_run_loop (<[l := el]> h) r n_elements ps' with
                  | None => None
                  | Some (h', g) => Some (h', Yield l g)
                  end
              end
          end
      end
  end.

Definition isserlis_run {A : Type} (h : gmap loc (list A)) (r : loc)
    : option (gmap loc (list A) * gen loc) :=
  match h !! r with
  | None => None
  | Some set_ =>
      let n_elements := length set_ in
      isserlis_run_loop h r n_elements (permutations (range n_elements))
  end.

(** The lists behind the references a run yielded, read in store [h]. *)
Definition contents {A : Type} (h : gmap loc (list A)) (g : gen loc)
    : list (option (list A)) :=
  map (fun l => h !! l) (yields g).

(** ** [counts] *)

(** A Python [dict] where the order of the keys matters: the entries in
    insertion order, no key twice. [d[k] = v] replaces the value of a key
    already there in place and appends a new key; [d[k]] raises KeyError on
    an absent key. *)
Fixpoint pydict_set {K V : Type} `{EqDecision K} (d : list (K * V)) (k : K)
    (v : V) : list (K * V) :=
  match d with
  | [] => [(k, v)]
  | (k', v') :: d' =>
      if decide (k' = k) then (k', v) :: d' else (k', v') :: pydict_set d' k v
  end.

Fixpoint pydict_get {K V : Type} `{EqDecision K} (d : list (K * V)) (k : K)
    : result V :=
  match d with
  | [] => Raise KeyError
  | (k', v') :: d' => if decide (k' = k) then Ok v' else pydict_get d' k
  end.

(** [tuple(g)] on a generator: everything it yields, or its exception. *)
Fixpoint tuple_of {A : Type} (g : gen A) : result (list A) :=
  match g with
  | Stop => Ok []
  | Yield a g' => let* l := tuple_of g' in Ok (a :: l)
  | Throw e => Raise e
  end.

(** [l.count(j)] on a tuple of any values. *)
Definition count_eq {K : Type} `{EqDecision K} (l : list K) (j : K) : nat :=
  length (filter (fun x => bool_decide (x = j)) l).

(** A key is hashed when it enters a dictionary, and [hash] raises
    TypeError on a Python list. A Rocq [list] stands for a Python list and
    for a Python tuple alike, so [counts] is told by [hashable] which of its
    elements can be hashed: none of them when they are lists, as what
    [isserlis] yields; all of them when they are tuples of ints, as what
    [isserlis_stationary] yields. *)
Definition hashable_list {A : Type} (l : list A) : bool := false.

Definition hashable_tuple (t : list nat) : bool := true.

(** [l = tuple(l)] consumes the iterable first; then
    [{j: l.count(j) for j in l}] takes the elements in order, and the first
    one that cannot be hashed ends the comprehension with TypeError. *)
Definition counts {K : Type} `{EqDecision K} (hashable : K -> bool)
    (l : gen K) : result (list (K * nat)) :=
  let* l := tuple_of l in
  foldM (fun d j =>
           let c := count_eq l j in
           if hashable j then Ok (pydict_set d j c) else Raise TypeError)
        l [].

(** ** [beautiful_print] *)

(** [str(n)] for a non-negative int. *)
Definition str (n : nat) : string := pretty n.

(** The line [print(a, b, ...)] writes: the arguments joined by one space. *)
Definition print_line (args : list string) : string := String.concat " " args.

(** [sorted(items, key=lambda t: t[1])]: Python's sort is stable, so an item
    goes after every item whose value is not larger. *)
Fixpoint insert_by_value {K : Type} (x : K * nat) (l : list (K * nat))
    : list (K * nat) :=
  match l with
  | [] => [x]
  | y :: l' => if snd x <? snd y then x :: l else y :: insert_by_value x l'
  end.

Definition sorted_by_value {K : Type} (items : list (K * nat))
    : list (K * nat) :=
  fold_left (fun acc x => insert_by_value x acc) items [].

(** [OrderedDict(pairs)] *)
Definition ordered_dict {K V : Type} `{EqDecision K} (pairs : list (K * V))
    : list (K * V) :=
  fold_left (fun d kv => pydict_set d (fst kv) (snd kv)) pairs [].

(** The strings chosen by [option]. *)
Record style : Type := {
  times_ : string;
  endline_ : string;
  newline_ : string;
  nonumber_ : string;
  s : list string;
  s2 : list string;
  cov : string;
}.

Definition style_of (option : string) : style :=
  if String.eqb option ".tex" then
    {| times_ := "\ "; endline_ := "\\"; newline_ := "&";
       nonumber_ := "\nonumber";
       s := [""; "\tau_1"; "\tau_2"; "\tau_3"; "\tau_4"; "\tau_5"];
       s2 := [""; "-\tau_1"; "-\tau_2"; "-\tau_3"; "-\tau_4"; "-\tau_5"];
       cov := "s_X" |}
  else
    {| times_ := "*"; endline_ := ""; newline_ := "";
       nonumber_ := "";
       s := [""; "t_1"; "t_2"; "t_3"; "t_4"; "t_5"];
       s2 := [""; "-t_1"; "-t_2"; "-t_3"; "t_4"; "t_5"];
       cov := "s" |}.

(** [for l, j in enumerate(set_[k+1:]): differences[abs(j-i)] = ...] *)
Definition differences_inner (st : style) (k : nat) (i : Z) (rest : list Z)
    (d : gmap Z string) : result (gmap Z string) :=
  foldM (fun d lj =>
           let* a := getitem (s st) (k + fst lj + 1) in
           let* b := getitem (s2 st) k in
           Ok (<[Z.abs (snd lj - i) := cov st +:+ "(" +:+ a +:+ b +:+ ")"]> d))
        (enumerate rest) d.

(** The two nested loops, then [differences[0] = cov + '(0)']. *)
Definition differences_of (st : style) (set_ : list Z)
    : result (gmap Z string) :=
  let* d := foldM (fun d ki =>
                     differences_inner st (fst ki) (snd ki)
                                       (skipn (fst ki + 1) set_) d)
                  (enumerate set_) ∅ in
  Ok (<[0%Z := cov st +:+ "(0)"]> d).

(** [differences[_]] for a position [_] of a key. *)
Definition differences_get (differences : gmap Z string) (i : nat)
    : result string :=
  match differences !! Z.of_nat i with
  | Some v => Ok v
  | None => Raise KeyError
  end.

(** The text of one term: the body of the loop over [dic.keys()] up to the
    [print]. *)
Definition term_text (st : style) (differences : gmap Z string)
    (dic : list (list nat * nat)) (k : list nat) : result string :=
  let* m := pydict_get dic k in
  let txt := if m =? 1 then "" else "" +:+ (str m +:+ times_ st) in
  foldM (fun txt il =>
           if snd il =? 0 then Ok txt
           else if snd il =? 1 then
             let* d := differences_get differences (fst il) in
             Ok (txt +:+ d)
           else
             let* d := differences_get differences (fst il) in
             Ok (txt +:+ (d +:+ "^" +:+ str (snd il))))
        (enumerate k) txt.

Fixpoint print_loop (st : style) (differences : gmap Z string)
    (dic : list (list nat * nat)) (jks : list (nat * list nat)) : gen string :=
  match jks with
  | [] => Stop
  | (j, k) :: jks' =>
      match term_text st differences dic k with
      | Raise e => Throw e
      | Ok txt =>
          let line :=
            if j =? 0 then
              print_line [newline_ st; txt; endline_ st; nonumber_ st]
            else
              print_line ["+"; newline_ st; txt; endline_ st; nonumber_ st] in
          Yield line (print_loop st differences dic jks')
      end
  end.

(** [beautiful_print(set_, dic, option)]: the lines printed, in order, ended
    by [Stop] or by the exception that escapes. [set_elements] stands for
    [list(set(set_))], in the order Python iterates the set. *)
Definition beautiful_print (set_elements : list Z)
    (dic : list (list nat * nat)) (option : string) : gen string :=
  let st := style_of option in
  match differences_of st set_elements with
  | Raise e => Throw e
  | Ok differences =>
      let dic := ordered_dict (sorted_by_value dic) in
      print_loop st differences dic (enumerate (map fst dic))
  end.

(** ** The statements at the end of the module *)

(** The three statements at the end of the module, for any [set_analytic]:
    [token_order] stands for the iteration order of [set(set_analytic)] and
    [int_order] for that of [set(set_to_nbs)]; the result is what is
    printed. *)
Definition script (token_order : list string) (int_order : list Z)
    (set_analytic : list string) : gen string :=
  match isserlis_stationary_analytical token_order set_analytic with
  | Raise e => Throw e
  | Ok (set_to_nbs, iss) =>
      match counts hashable_tuple iss with
      | Raise e => Throw e
      | Ok iss => beautiful_print int_order iss "Screen"
      end
  end.

(** * Notions used to state and prove the properties *)

(** [pos v t] is the position [t.index(v)] returns when [v] occurs in [t]
    (and [length t] otherwise). *)
Fixpoint pos (v : nat) (t : list nat) : nat :=
  match t with
  | [] => 0
  | x :: t' => if x =? v then 0 else S (pos v t')
  end.

(** [passes m p]: [test(m, p)] returned [True]. *)
Definition passes (m : nat) (p : list nat) : bool :=
  match test m p with
  | Ok b => b
  | Raise _ => false
  end.

(** The permutations on which [isserlis] yields, in the order it meets them. *)
Definition accepted (m : nat) : list (list nat) :=
  filter (passes m) (permutations (range m)).

(** [canon_loop] is [test_loop] with every [t.index] replaced by [pos]: the
    two agree whenever the values looked up occur in [t]. *)
Fixpoint canon_loop (t js : list nat) (i : nat) : bool :=
  match js with
  | [] => true
  | j :: js' =>
      if pos j t <? i then false
      else if pos (j + 1) t <? pos j t then false
           else canon_loop t js' (pos j t)
  end.

Definition canon (m : nat) (t : list nat) : bool :=
  canon_loop t (range_step2 m) (pos 0 t).

(** The permutations of [range(m)] that [canon] accepts, in generation order. *)
Definition canonical_perms (m : nat) : list (list nat) :=
  filter (canon m) (permutations (range m)).

(** [dfact m] is the double factorial [m!!]. *)
Fixpoint dfact (m : nat) : nat :=
  match m with
  | S (S k) => m * dfact k
  | _ => 1
  end.

(** [ins k a l] puts [a] at position [k] of [l]; [del a l] removes the first
    [a]; [lift k] is what [ins k] does to the positions of the other values. *)
Fixpoint ins (k a : nat) (l : list nat) : list nat :=
  match k, l with
  | S k', x :: l' => x :: ins k' a l'
  | _, _ => a :: l
  end.

Fixpoint del (a : nat) (l : list nat) : list nat :=
  match l with
  | [] => []
  | x :: l' => if x =? a then l' else x :: del a l'
  end.

Definition lift (k i : nat) : nat := if i <? k then i else S i.

(** One pair more: [0] first, [1] at position [k] of the rest, the values of
    [p] shifted by two. *)
Definition build (k : nat) (p : list nat) : list nat :=
  0 :: ins k 1 (map (Nat.add 2) p).

(** Slot [j] of a yielded list holds [set_[p.index(j)]], so the adjacent slots
    [(j, j+1)] pair the input positions [p.index(j)] and [p.index(j+1)]. *)
Definition pairing (m : nat) (p : list nat) : list (nat * nat) :=
  map (fun j => (pos j p, pos (j + 1) p)) (range_step2 m).



(** [2**k] as an integer. *)
Definition pw (k : nat) : Z := (2 ^ Z.of_nat k)%Z.

(** The tokens of the spec's fourth scenario. *)
Definition scenario4 : list string := ["t"; "t"; "t+t_1"; "t+t_1"]%string.

(** The shapes a call of [isserlis_stationary_analytical] yields. *)
Definition shapes_yielded (r : result (list Z * gen (list nat)))
    : list (list nat) :=
  match r with
  | Ok (_, g) => yields g
  | Raise _ => []
  end.

(** The input positions a list of pairs uses, pair by pair. *)
Definition positions_of (P : list (nat * nat)) : list nat :=
  flat_map (fun ab => [fst ab; snd ab]) P.

(** [gen_map f g] yields [f a] wherever [g] yields [a] and ends as [g] does. *)
Fixpoint gen_map {A B : Type} (f : A -> B) (g : gen A) : gen B :=
  match g with
  | Stop => Stop
  | Yield a g' => Yield (f a) (gen_map f g')
  | Throw e => Throw e
  end.

(** The dictionary [{j: l.count(j) for j in l}] of a tuple [l] all of whose
    elements can be hashed. *)
Definition counts_tuple {K : Type} `{EqDecision K} (l : list K)
    : list (K * nat) :=
  fold_left (fun d j => pydict_set d j (count_eq l j)) l [].

(** The lines printed for [nums] when the set of labels is iterated as
    [0, 1, 3, 7]. *)
Definition screen_lines (nums : list Z) : list string :=
  match counts hashable_tuple (isserlis_stationary nums) with
  | Ok dic => yields (beautiful_print [0; 1; 3; 7]%Z dic "Screen")
  | Raise _ => []
  end.

(** * Properties *)

(** ** Positions *)

Lemma index_In (t : list nat) (v : nat) : In v t -> index t v = Ok (pos v t).
Proof.
  induction t as [|x t IH]; simpl; [tauto|].
  intros [->|H].
  - now rewrite Nat.eqb_refl.
  - destruct (x =? v); [reflexivity|]. now rewrite (IH H).
Qed.

Lemma index_not_In (t : list nat) (v : nat) :
  ~ In v t -> index t v = Raise ValueError.
Proof.
  induction t as [|x t IH]; simpl; [reflexivity|].
  intros H. destruct (Nat.eqb_spec x v) as [->|_]; [tauto|].
  rewrite IH; [reflexivity | tauto].
Qed.

Lemma pos_lt (t : list nat) (v : nat) : In v t -> pos v t < length t.
Proof.
  induction t as [|x t IH]; simpl; [tauto|].
  intros [->|H].
  - rewrite Nat.eqb_refl. lia.
  - destruct (x =? v); [lia|]. specialize (IH H). lia.
Qed.

Lemma nth_error_pos (t : list nat) (v : nat) :
  In v t -> nth_error t (pos v t) = Some v.
Proof.
  induction t as [|x t IH]; simpl; [tauto|].
  intros H. destruct (Nat.eqb_spec x v) as [->|Hne]; [reflexivity|].
  simpl. apply IH. destruct H; [contradiction | assumption].
Qed.

Lemma pos_inj (t : list nat) (v w : nat) :
  In v t -> In w t -> pos v t = pos w t -> v = w.
Proof.
  intros Hv Hw E. apply nth_error_pos in Hv, Hw. congruence.
Qed.

Lemma pos_nth_error (t : list nat) (i v : nat) :
  NoDup t -> nth_error t i = Some v -> pos v t = i.
Proof.
  intros Hnd. revert i. induction Hnd as [|x t Hx Hnd IH]; intros [|i]; simpl;
    try discriminate.
  - intros [= ->]. now rewrite Nat.eqb_refl.
  - intros H. destruct (Nat.eqb_spec x v) as [->|_].
    + apply nth_error_In in H. contradiction.
    + f_equal. now apply IH.
Qed.

Lemma pos_map_add (c v : nat) (t : list nat) :
  pos (c + v) (map (Nat.add c) t) = pos v t.
Proof.
  induction t as [|x t IH]; simpl; [reflexivity|].
  rewrite IH. destruct (Nat.eqb_spec x v), (Nat.eqb_spec (c + x) (c + v));
    try reflexivity; lia.
Qed.

(** ** Inserting and deleting one value *)

Lemma lift_lt (k i j : nat) : lift k i < lift k j <-> i < j.
Proof. unfold lift. destruct (Nat.ltb_spec i k), (Nat.ltb_spec j k); lia. Qed.

Lemma ins_perm (k a : nat) (l : list nat) : Permutation (a :: l) (ins k a l).
Proof.
  revert k. induction l as [|x l IH]; intros [|k]; simpl; try reflexivity.
  rewrite perm_swap. now constructor.
Qed.

Lemma pos_ins_same (k a : nat) (l : list nat) :
  ~ In a l -> k <= length l -> pos a (ins k a l) = k.
Proof.
  revert k. induction l as [|x l IH]; intros [|k] Hn Hk; simpl in *;
    try (now rewrite Nat.eqb_refl); try lia.
  destruct (Nat.eqb_spec x a) as [->|_]; [tauto|].
  f_equal. apply IH; [tauto | lia].
Qed.

Lemma pos_ins_other (k a v : nat) (l : list nat) :
  v <> a -> In v l -> pos v (ins k a l) = lift k (pos v l).
Proof.
  intros Hva. revert k. induction l as [|x l IH]; intros k Hin; [destruct Hin|].
  destruct k as [|k]; simpl.
  - destruct (Nat.eqb_spec a v); [congruence|]. reflexivity.
  - destruct (Nat.eqb_spec x v) as [->|Hne]; [reflexivity|].
    rewrite IH by (destruct Hin; [contradiction | assumption]).
    unfold lift. simpl. destruct (pos v l <? k) eqn:E.
    + apply Nat.ltb_lt in E. destruct (Nat.ltb_spec (S (pos v l)) (S k)); lia.
    + apply Nat.ltb_ge in E. destruct (Nat.ltb_spec (S (pos v l)) (S k)); lia.
Qed.

Lemma ins_del (a : nat) (l : list nat) :
  In a l -> ins (pos a l) a (del a l) = l.
Proof.
  induction l as [|x l IH]; simpl; [tauto|].
  intros H. destruct (Nat.eqb_spec x a) as [->|Hne].
  - now destruct l.
  - simpl. f_equal. apply IH. destruct H; [contradiction | assumption].
Qed.

Lemma del_ins (k a : nat) (l : list nat) : ~ In a l -> del a (ins k a l) = l.
Proof.
  revert k. induction l as [|x l IH]; intros [|k] H; simpl in *;
    try (now rewrite Nat.eqb_refl).
  destruct (Nat.eqb_spec x a) as [->|_]; [tauto|].
  f_equal. apply IH. tauto.
Qed.

Lemma del_perm (a : nat) (l : list nat) :
  In a l -> Permutation l (a :: del a l).
Proof.
  intros H. rewrite <- (ins_del a l H) at 1. symmetry. apply ins_perm.
Qed.

Lemma del_length (a : nat) (l : list nat) :
  In a l -> S (length (del a l)) = length l.
Proof.
  intros H. apply del_perm in H. apply Permutation_length in H. simpl in H. lia.
Qed.

(** ** [itertools.permutations] lists every ordering exactly once *)

Section Permutations.
Context {A : Type}.
Implicit Types (l r p : list A) (x : A).

Lemma selections_fst l : map fst (selections l) = l.
Proof.
  induction l as [|x l IH]; simpl; [reflexivity|].
  f_equal. rewrite map_map. rewrite <- IH at 2. now apply map_ext.
Qed.

Lemma selections_perm l x r :
  In (x, r) (selections l) -> Permutation l (x :: r).
Proof.
  revert x r. induction l as [|y l IH]; simpl; intros x r; [tauto|].
  intros [E|H]; [injection E as -> ->; reflexivity|].
  apply in_map_iff in H. destruct H as [[z r'] [E H]].
  simpl in E. injection E as -> <-.
  rewrite perm_swap. constructor. now apply IH.
Qed.

Lemma selections_In l x : In x l -> exists r, In (x, r) (selections l).
Proof.
  intros H. rewrite <- (selections_fst l) in H.
  apply in_map_iff in H. destruct H as [[y r] [E H]]. simpl in E. subst y.
  now exists r.
Qed.

Lemma selections_fst_inj l a b :
  NoDup l -> In a (selections l) -> In b (selections l) ->
  fst a = fst b -> a = b.
Proof.
  revert a b. induction l as [|y l IH]; intros a b Hnd; simpl; [tauto|].
  apply NoDup_cons_iff in Hnd. destruct Hnd as [Hy Hnd].
  assert (Hfst : forall c, In c (map (fun yr => (fst yr, y :: snd yr))
                               (selections l)) -> In (fst c) l).
  { intros c Hc. apply in_map_iff in Hc. destruct Hc as [d [<- Hd]]. simpl.
    rewrite <- (selections_fst l). now apply in_map. }
  intros [<-|Ha] [<-|Hb] E; simpl in *.
  - reflexivity.
  - apply Hfst in Hb. rewrite <- E in Hb. contradiction.
  - apply Hfst in Ha. rewrite E in Ha. contradiction.
  - apply in_map_iff in Ha, Hb.
    destruct Ha as [a' [<- Ha]], Hb as [b' [<- Hb]]. simpl in E.
    now rewrite (IH a' b' Hnd Ha Hb E).
Qed.

Lemma permutations_n_In n l p :
  length l = n -> In p (permutations_n n l) <-> Permutation l p.
Proof.
  revert l p. induction n as [|n IH]; intros l p Hl; simpl.
  - apply length_zero_iff_nil in Hl. subst l. split.
    + intros [<-|[]]. reflexivity.
    + intros H. apply Permutation_nil in H. now left.
  - rewrite in_flat_map. split.
    + intros [[x r] [Hs Hp]]. simpl in Hp.
      apply in_map_iff in Hp. destruct Hp as [p' [<- Hp']].
      apply selections_perm in Hs.
      assert (Hr : length r = n).
      { apply Permutation_length in Hs. simpl in Hs. lia. }
      rewrite Hs. constructor. now apply (IH r p' Hr).
    + intros H. destruct p as [|x p'].
      { apply Permutation_length in H. simpl in H. lia. }
      assert (Hx : In x l).
      { apply (Permutation_in x (Permutation_sym H)). now left. }
      destruct (selections_In l x Hx) as [r Hs]. exists (x, r). split; [exact Hs|].
      simpl. apply in_map. apply selections_perm in Hs.
      assert (Hr : length r = n).
      { apply Permutation_length in Hs. simpl in Hs. lia. }
      apply (IH r p' Hr). apply Permutation_cons_inv with (a := x).
      now rewrite <- Hs.
Qed.

Lemma permutations_In l p : In p (permutations l) <-> Permutation l p.
Proof. now apply permutations_n_In. Qed.

Lemma NoDup_flat_map {B : Type} (f : A -> list B) l :
  NoDup l ->
  (forall x, In x l -> NoDup (f x)) ->
  (forall x y z, In x l -> In y l -> In z (f x) -> In z (f y) -> x = y) ->
  NoDup (flat_map f l).
Proof.
  induction 1 as [|x l Hx Hnd IH]; simpl; intros Hf Hdisj; [constructor|].
  apply NoDup_app.
  - apply Hf. now left.
  - apply IH.
    + intros y Hy. apply Hf. now right.
    + intros y y' z Hy Hy'. apply Hdisj; now right.
  - intros z Hz Hz'. apply in_flat_map in Hz'. destruct Hz' as [y [Hy Hzy]].
    assert (x = y) by (apply (Hdisj x y z); simpl; auto).
    subst y. contradiction.
Qed.
End Permutations.

Lemma permutations_n_NoDup {A : Type} (n : nat) (l : list A) :
  length l = n -> NoDup l -> NoDup (permutations_n n l).
Proof.
  revert l. induction n as [|n IH]; intros l Hl Hnd; simpl.
  - repeat constructor. intros [].
  - apply NoDup_flat_map.
    + apply (NoDup_map_inv fst). now rewrite selections_fst.
    + intros [x r] Hs. simpl. apply selections_perm in Hs.
      apply Injective_map_NoDup_in; [intros ? ? _ _ [=]; assumption|].
      apply IH.
      * apply Permutation_length in Hs. simpl in Hs. lia.
      * apply (Permutation_NoDup Hs) in Hnd. now apply NoDup_cons_iff in Hnd.
    + intros a b z Ha Hb Hza Hzb.
      apply in_map_iff in Hza, Hzb.
      destruct Hza as [pa [<- _]], Hzb as [pb [[= E _] _]].
      now apply (selections_fst_inj l a b Hnd).
Qed.

Lemma permutations_NoDup {A : Type} (l : list A) :
  NoDup l -> NoDup (permutations l).
Proof. now apply permutations_n_NoDup. Qed.

(** The first permutation generated is the input order itself. *)
Lemma permutations_n_head {A : Type} (l : list A) :
  exists ps, permutations_n (length l) l = l :: ps.
Proof.
  induction l as [|x l [ps IH]]; simpl; [now exists []|].
  rewrite IH. simpl. eexists. reflexivity.
Qed.

(** ** The predicate [test] on permutations of [range(m)] *)

Lemma range_step2_In (m j : nat) :
  In j (range_step2 m) <-> j < m /\ Nat.even j = true.
Proof. unfold range_step2. rewrite filter_In, in_seq. intuition lia. Qed.

Lemma filter_even_shift (s m : nat) :
  filter Nat.even (seq (2 + s) m) = map (Nat.add 2) (filter Nat.even (seq s m)).
Proof.
  revert s. induction m as [|m IH]; intros s; [reflexivity|].
  change (seq (2 + s) (S m)) with ((2 + s) :: seq (2 + S s) m).
  change (seq s (S m)) with (s :: seq (S s) m).
  cbn [filter]. rewrite IH. change (Nat.even (2 + s)) with (Nat.even s).
  now destruct (Nat.even s).
Qed.

Lemma range_step2_SS (m : nat) :
  range_step2 (S (S m)) = 0 :: map (Nat.add 2) (range_step2 m).
Proof.
  unfold range_step2. change (seq 0 (S (S m))) with (0 :: 1 :: seq (2 + 0) m).
  cbn [filter Nat.even]. now rewrite filter_even_shift.
Qed.

Lemma test_loop_canon (t js : list nat) (i : nat) :
  (forall j, In j js -> In j t /\ In (j + 1) t) ->
  test_loop t js i = Ok (canon_loop t js i).
Proof.
  revert i. induction js as [|j js IH]; intros i H; simpl; [reflexivity|].
  destruct (H j (or_introl eq_refl)) as [Hj Hj1].
  rewrite (index_In t j Hj). simpl.
  destruct (pos j t <? i); [reflexivity|].
  rewrite (index_In t (j + 1) Hj1). simpl.
  destruct (pos (j + 1) t <? pos j t); [reflexivity|].
  apply IH. intros j' Hj'. apply H. now right.
Qed.

Lemma even_succ_lt (m j : nat) :
  Nat.even m = true -> Nat.even j = true -> j < m -> j + 1 < m.
Proof.
  intros Hm Hj Hlt. apply Nat.even_spec in Hm, Hj.
  destruct Hm as [a ->], Hj as [b ->]. lia.
Qed.

Lemma test_canon (m : nat) (t : list nat) :
  Permutation (seq 0 m) t -> Nat.even m = true -> 0 < m ->
  test m t = Ok (canon m t).
Proof.
  intros Hp He Hm. unfold test, canon.
  assert (Hin : forall v, v < m -> In v t).
  { intros v Hv. apply (Permutation_in v Hp). apply in_seq. lia. }
  rewrite (index_In t 0 (Hin 0 Hm)). simpl.
  apply test_loop_canon. intros j Hj. apply range_step2_In in Hj.
  destruct Hj as [Hj Hev]. split; apply Hin; [assumption|].
  now apply even_succ_lt.
Qed.

(** An accepted tuple has its even values in increasing position, each even
    value before its successor. *)
Lemma canon_loop_inv (t js : list nat) (i : nat) :
  canon_loop t js i = true ->
  forall j, In j js -> i <= pos j t /\ pos j t <= pos (j + 1) t.
Proof.
  revert i. induction js as [|j js IH]; intros i H j' Hj'; [destruct Hj'|].
  simpl in H.
  destruct (Nat.ltb_spec (pos j t) i); [discriminate|].
  destruct (Nat.ltb_spec (pos (j + 1) t) (pos j t)); [discriminate|].
  destruct Hj' as [<-|Hj']; [lia|].
  destruct (IH _ H j' Hj'). lia.
Qed.

Lemma canon_pos0 (m : nat) (t : list nat) :
  Permutation (seq 0 m) t -> Nat.even m = true -> 0 < m ->
  canon m t = true -> pos 0 t = 0.
Proof.
  intros Hp He Hm Hc.
  assert (Hin : forall v, v < m <-> In v t).
  { intros v. split; intros Hv.
    - apply (Permutation_in v Hp). apply in_seq. lia.
    - apply (Permutation_in v (Permutation_sym Hp)) in Hv.
      apply in_seq in Hv. lia. }
  destruct t as [|v r].
  { apply Permutation_length in Hp. rewrite length_seq in Hp. simpl in Hp. lia. }
  assert (Hv : v < m) by (apply Hin; now left).
  assert (Hpv : pos v (v :: r) = 0) by (simpl; now rewrite Nat.eqb_refl).
  pose proof (canon_loop_inv _ _ _ Hc) as Hinv.
  destruct (Nat.even v) eqn:Ev.
  - destruct (Hinv v) as [H1 _]; [now apply range_step2_In|]. lia.
  - destruct v as [|v]; [discriminate|].
    rewrite Nat.even_succ, <- Nat.negb_even in Ev.
    apply negb_false_iff in Ev.
    destruct (Hinv v) as [_ H2]; [apply range_step2_In; split; [lia|assumption]|].
    replace (v + 1) with (S v) in H2 by lia.
    assert (E : pos v (S v :: r) = pos (S v) (S v :: r)) by lia.
    apply pos_inj in E; [lia | apply Hin; lia | now left].
Qed.

(** ** One pair more: [0] first, [1] anywhere, the rest shifted by two *)

Lemma not_In_shift (c a : nat) (p : list nat) :
  a < c -> ~ In a (map (Nat.add c) p).
Proof. intros Ha H. apply in_map_iff in H. destruct H as [x [E _]]. lia. Qed.

Lemma pos_build (k v : nat) (p : list nat) :
  In v p -> pos (2 + v) (build k p) = S (lift k (pos v p)).
Proof.
  intros Hv. unfold build. cbn [pos Nat.eqb Nat.add]. f_equal.
  change (S (S v)) with (2 + v).
  rewrite pos_ins_other; [now rewrite pos_map_add | lia | now apply in_map].
Qed.

Lemma canon_loop_build (k : nat) (p js : list nat) (i : nat) :
  (forall j, In j js -> In j p /\ In (j + 1) p) ->
  canon_loop (build k p) (map (Nat.add 2) js) (S (lift k i))
  = canon_loop p js i.
Proof.
  revert i. induction js as [|j js IH]; intros i H; [reflexivity|].
  destruct (H j (or_introl eq_refl)) as [Hj Hj1].
  cbn [map canon_loop].
  replace (2 + j + 1) with (2 + (j + 1)) by lia.
  rewrite !pos_build by assumption.
  rewrite IH by (intros j' Hj'; apply H; now right).
  pose proof (lift_lt k (pos j p) i).
  pose proof (lift_lt k (pos (j + 1) p) (pos j p)).
  destruct (Nat.ltb_spec (pos j p) i), (Nat.ltb_spec (pos (j + 1) p) (pos j p)),
    (Nat.ltb_spec (S (lift k (pos j p))) (S (lift k i))),
    (Nat.ltb_spec (S (lift k (pos (j + 1) p))) (S (lift k (pos j p))));
    try reflexivity; lia.
Qed.

Lemma canon_build (m k : nat) (p : list nat) :
  Permutation (seq 0 m) p -> Nat.even m = true ->
  canon (S (S m)) (build k p) = canon m p.
Proof.
  intros Hp He. unfold canon. rewrite range_step2_SS.
  assert (Hin : forall j, In j (range_step2 m) -> In j p /\ In (j + 1) p).
  { intros j Hj. apply range_step2_In in Hj. destruct Hj as [Hj Hev].
    split; apply (Permutation_in _ Hp); apply in_seq; [lia|].
    pose proof (even_succ_lt m j He Hev Hj). lia. }
  cbn [canon_loop]. change (pos 0 (build k p)) with 0.
  change (pos (0 + 1) (build k p)) with (S (pos 1 (ins k 1 (map (Nat.add 2) p)))).
  cbn [Nat.ltb Nat.leb].
  destruct (range_step2 m) as [|j js] eqn:Ejs; [reflexivity|].
  assert (Hj : In j p) by (apply Hin; now left).
  rewrite <- (canon_loop_build k p (j :: js) (pos 0 p) Hin).
  cbn [map canon_loop]. rewrite (pos_build k j p Hj).
  assert (Hj0 : pos 0 p <= pos j p).
  { destruct m as [|m]; [discriminate|].
    unfold range_step2 in Ejs. simpl in Ejs. injection Ejs as <- _. lia. }
  assert (lift k (pos 0 p) <= lift k (pos j p)).
  { pose proof (lift_lt k (pos j p) (pos 0 p)). lia. }
  destruct (Nat.ltb_spec (S (lift k (pos j p))) 0),
    (Nat.ltb_spec (S (lift k (pos j p))) (S (lift k (pos 0 p))));
    try reflexivity; lia.
Qed.

Lemma seq_SS (m : nat) : seq 0 (S (S m)) = 0 :: 1 :: map (Nat.add 2) (seq 0 m).
Proof.
  change (seq 0 (S (S m))) with (0 :: 1 :: seq 2 m). do 2 f_equal.
  rewrite <- seq_shift, <- seq_shift, map_map. reflexivity.
Qed.

Lemma map_add_sub (c : nat) (l : list nat) :
  map (fun x => x - c) (map (Nat.add c) l) = l.
Proof.
  rewrite map_map. rewrite <- (map_id l) at 2. apply map_ext. intros x. lia.
Qed.

Lemma map_sub_add (c : nat) (l : list nat) :
  (forall x, In x l -> c <= x) ->
  map (Nat.add c) (map (fun x => x - c) l) = l.
Proof.
  intros H. rewrite map_map. rewrite <- (map_id l) at 2. apply map_ext_in.
  intros x Hx. specialize (H x Hx). lia.
Qed.

Lemma build_perm (m k : nat) (p : list nat) :
  Permutation (seq 0 m) p -> Permutation (seq 0 (S (S m))) (build k p).
Proof.
  intros Hp. rewrite seq_SS. unfold build. constructor.
  rewrite <- ins_perm. constructor. now apply Permutation_map.
Qed.

Lemma build_inj (k k' : nat) (p p' : list nat) :
  k <= length p -> k' <= length p' ->
  build k p = build k' p' -> k = k' /\ p = p'.
Proof.
  intros Hk Hk' E. unfold build in E.
  assert (H1 : forall q, ~ In 1 (map (Nat.add 2) q))
    by (intros q; apply not_In_shift; lia).
  pose proof (H1 p) as Hq. pose proof (H1 p') as Hq'.
  rewrite <- (length_map (Nat.add 2) p) in Hk.
  rewrite <- (length_map (Nat.add 2) p') in Hk'.
  assert (Ep : map (fun x => x - 2) (map (Nat.add 2) p) = p)
    by apply map_add_sub.
  assert (Ep' : map (fun x => x - 2) (map (Nat.add 2) p') = p')
    by apply map_add_sub.
  revert E Hq Hq' Hk Hk' Ep Ep'.
  generalize (map (Nat.add 2) p) (map (Nat.add 2) p'). intros q q' E.
  injection E as E. intros Hq Hq' Hk Hk' Ep Ep'. split.
  - rewrite <- (pos_ins_same k 1 q Hq Hk), E. now apply pos_ins_same.
  - apply (f_equal (del 1)) in E. rewrite !del_ins in E by assumption.
    congruence.
Qed.

(** Every accepted permutation of [range(m+2)] is [build k p] for exactly the
    accepted permutations [p] of [range(m)] and the positions [k <= m]. *)
Lemma canon_step (m : nat) (p : list nat) :
  Nat.even m = true ->
  Permutation (seq 0 (S (S m))) p /\ canon (S (S m)) p = true <->
  exists k p', k <= m /\ Permutation (seq 0 m) p' /\ canon m p' = true
               /\ p = build k p'.
Proof.
  intros He. split.
  - intros [Hp Hc].
    assert (H0 : pos 0 p = 0) by (apply (canon_pos0 (S (S m))); auto; lia).
    assert (Hin0 : In 0 p) by (apply (Permutation_in 0 Hp); apply in_seq; lia).
    pose proof (nth_error_pos p 0 Hin0) as Hhd. rewrite H0 in Hhd.
    destruct p as [|x r]; [discriminate|]. injection Hhd as ->.
    rewrite seq_SS in Hp. apply Permutation_cons_inv in Hp.
    assert (Hin1 : In 1 r) by (apply (Permutation_in 1 Hp); now left).
    pose proof (del_perm 1 r Hin1) as Hd.
    assert (Hr' : Permutation (map (Nat.add 2) (seq 0 m)) (del 1 r)).
    { apply Permutation_cons_inv with (a := 1). now rewrite Hp. }
    assert (Hge : forall x, In x (del 1 r) -> 2 <= x).
    { intros x Hx. apply (Permutation_in x (Permutation_sym Hr')) in Hx.
      apply in_map_iff in Hx. destruct Hx as [y [<- _]]. lia. }
    set (p' := map (fun x => x - 2) (del 1 r)).
    assert (Hp' : Permutation (seq 0 m) p').
    { rewrite <- (map_add_sub 2 (seq 0 m)). now apply Permutation_map. }
    assert (Hb : 0 :: r = build (pos 1 r) p').
    { unfold build, p'. rewrite map_sub_add by assumption.
      now rewrite ins_del. }
    exists (pos 1 r), p'. repeat split; try assumption.
    + pose proof (pos_lt r 1 Hin1). apply Permutation_length in Hp.
      cbn [length] in Hp. rewrite length_map, length_seq in Hp. lia.
    + rewrite <- (canon_build m (pos 1 r) p' Hp' He). now rewrite <- Hb.
  - intros [k [p' [Hk [Hp' [Hc ->]]]]]. split.
    + now apply build_perm.
    + now rewrite canon_build.
Qed.

(** ** Counting the accepted permutations *)

Lemma canonical_perms_In (m : nat) (p : list nat) :
  In p (canonical_perms m) <-> Permutation (seq 0 m) p /\ canon m p = true.
Proof. unfold canonical_perms, range. rewrite filter_In, permutations_In. tauto. Qed.

Lemma canonical_perms_NoDup (m : nat) : NoDup (canonical_perms m).
Proof. apply NoDup_filter, permutations_NoDup, seq_NoDup. Qed.

Lemma flat_map_length_const {A B : Type} (f : A -> list B) (c : nat)
    (l : list A) :
  (forall x, In x l -> length (f x) = c) -> length (flat_map f l) = c * length l.
Proof.
  induction l as [|x l IH]; intros H; simpl; [lia|].
  rewrite length_app, (H x (or_introl eq_refl)).
  rewrite IH by (intros y Hy; apply H; now right). lia.
Qed.

Lemma canonical_perms_step (m : nat) :
  Nat.even m = true ->
  Permutation (canonical_perms (S (S m)))
    (flat_map (fun p => map (fun k => build k p) (seq 0 (S m)))
              (canonical_perms m)).
Proof.
  intros He.
  assert (Hlen : forall p, In p (canonical_perms m) -> length p = m).
  { intros p Hp. apply canonical_perms_In in Hp. destruct Hp as [Hp _].
    apply Permutation_length in Hp. now rewrite length_seq in Hp. }
  apply NoDup_Permutation.
  - apply canonical_perms_NoDup.
  - apply NoDup_flat_map.
    + apply canonical_perms_NoDup.
    + intros p Hp. apply Injective_map_NoDup_in; [|apply seq_NoDup].
      intros k k' Hk Hk' E. apply in_seq in Hk, Hk'.
      apply build_inj in E; [tauto | |]; rewrite (Hlen p Hp); lia.
    + intros p p' z Hp Hp' Hz Hz'. apply in_map_iff in Hz, Hz'.
      destruct Hz as [k [<- Hk]], Hz' as [k' [E Hk']].
      apply in_seq in Hk, Hk'. symmetry in E.
      apply build_inj in E; [tauto | |]; rewrite Hlen by assumption; lia.
  - intros p. rewrite canonical_perms_In, (canon_step m p He), in_flat_map. split.
    + intros [k [p' [Hk [Hp' [Hc ->]]]]]. exists p'. split.
      * now apply canonical_perms_In.
      * apply in_map_iff. exists k. split; [reflexivity|]. apply in_seq. lia.
    + intros [p' [Hp' Hz]]. apply in_map_iff in Hz. destruct Hz as [k [<- Hk]].
      apply in_seq in Hk. apply canonical_perms_In in Hp'. exists k, p'.
      repeat split; try tauto. lia.
Qed.

Lemma canonical_perms_length (n : nat) :
  length (canonical_perms (2 * n)) = dfact (2 * n - 1).
Proof.
  induction n as [|n IH]; [reflexivity|].
  replace (2 * S n) with (S (S (2 * n))) by lia.
  assert (He : Nat.even (2 * n) = true) by (apply Nat.even_spec; now exists n).
  rewrite (Permutation_length (canonical_perms_step (2 * n) He)).
  rewrite (flat_map_length_const _ (S (2 * n)))
    by (intros; now rewrite length_map, length_seq).
  rewrite IH. destruct n as [|n]; [reflexivity|].
  replace (S (S (2 * S n)) - 1) with (S (S (2 * S n - 1))) by lia.
  cbn [dfact]. lia.
Qed.

(** ** [test] on [build], for any tuple *)

Lemma In_build (k v : nat) (p : list nat) : In (2 + v) (build k p) <-> In v p.
Proof.
  unfold build. split.
  - intros [H|H]; [discriminate|].
    apply (Permutation_in _ (Permutation_sym (ins_perm k 1 _))) in H.
    destruct H as [H|H]; [discriminate|].
    apply in_map_iff in H. destruct H as [x [E Hx]].
    now replace v with x by lia.
  - intros H. right. apply (Permutation_in _ (ins_perm k 1 _)). right.
    now apply in_map.
Qed.

Lemma index_build (k v : nat) (p : list nat) :
  index (build k p) (2 + v) = let* i := index p v in Ok (S (lift k i)).
Proof.
  destruct (in_dec Nat.eq_dec v p) as [H|H].
  - rewrite (index_In p v H), index_In by now apply In_build.
    cbn [bind]. now rewrite pos_build.
  - rewrite (index_not_In p v H), index_not_In; [reflexivity|].
    now rewrite In_build.
Qed.

Lemma test_loop_build (k : nat) (p js : list nat) (i : nat) :
  test_loop (build k p) (map (Nat.add 2) js) (S (lift k i)) = test_loop p js i.
Proof.
  revert i. induction js as [|j js IH]; intros i; [reflexivity|].
  cbn [map test_loop]. replace (2 + j + 1) with (2 + (j + 1)) by lia.
  rewrite !index_build.
  destruct (index p j) as [a|e]; [|reflexivity]. cbn [bind].
  pose proof (lift_lt k a i).
  destruct (Nat.ltb_spec (S (lift k a)) (S (lift k i))), (Nat.ltb_spec a i);
    try reflexivity; try lia.
  destruct (index p (j + 1)) as [b|e]; [|reflexivity]. cbn [bind].
  pose proof (lift_lt k b a).
  destruct (Nat.ltb_spec (S (lift k b)) (S (lift k a))), (Nat.ltb_spec b a);
    try reflexivity; try lia.
  apply IH.
Qed.

Lemma test_build (m k : nat) (p : list nat) :
  0 < m -> test (S (S m)) (build k p) = test m p.
Proof.
  intros Hm. unfold test. rewrite range_step2_SS.
  destruct m as [|m]; [lia|].
  assert (E : range_step2 (S m) = 0 :: tl (range_step2 (S m))).
  { unfold range_step2. reflexivity. }
  rewrite E. generalize (tl (range_step2 (S m))). intros js.
  change (index (build k p) 0) with (@Ok nat 0). cbn [bind map test_loop].
  change (index (build k p) 0) with (@Ok nat 0). cbn [bind].
  change (0 + 1) with 1.
  assert (H1 : In 1 (build k p)).
  { right. apply (Permutation_in _ (ins_perm k 1 _)). now left. }
  rewrite (index_In _ 1 H1). cbn [bind].
  change (0 <? 0) with false. cbv iota.
  change (pos 1 (build k p) <? 0) with false. cbv iota.
  change (Nat.add 2 0) with (2 + 0). change (2 + 0 + 1) with (2 + 1).
  rewrite !index_build.
  destruct (index p 0) as [a|e]; [|reflexivity]. cbn [bind].
  change (S (lift k a) <? 0) with false. cbv iota.
  rewrite Nat.ltb_irrefl.
  destruct (index p 1) as [b|e]; [|reflexivity]. cbn [bind].
  pose proof (lift_lt k b a).
  destruct (Nat.ltb_spec (S (lift k b)) (S (lift k a))), (Nat.ltb_spec b a);
    try reflexivity; try lia.
  apply test_loop_build.
Qed.

Lemma seq_build (m : nat) : seq 0 (S (S m)) = build 0 (seq 0 m).
Proof. rewrite seq_SS. unfold build. now destruct (map (Nat.add 2) (seq 0 m)). Qed.

Lemma test_identity_odd (a : nat) :
  test (2 * a + 1) (seq 0 (2 * a + 1)) = Raise ValueError.
Proof.
  induction a as [|a IH]; [reflexivity|].
  replace (2 * S a + 1) with (S (S (2 * a + 1))) by lia.
  rewrite seq_build, test_build by lia. exact IH.
Qed.

(** ** What [isserlis] yields on a non-empty input of even length *)

Lemma mapM_Forall2 {A B : Type} (f : A -> result B) (l : list A) (ys : list B) :
  mapM f l = Ok ys <-> Forall2 (fun x y => f x = Ok y) l ys.
Proof.
  revert ys. induction l as [|x l IH]; intros ys; simpl.
  - split; [intros [= <-]; constructor | inversion 1; reflexivity].
  - split.
    + destruct (f x) as [y|e] eqn:Ex; [|discriminate]. simpl.
      destruct (mapM f l) as [ys'|e]; [|discriminate]. simpl.
      intros [= <-]. constructor; [assumption|]. now apply IH.
    + inversion 1 as [|? y ? ys' Hy Hys]; subst. rewrite Hy. simpl.
      apply IH in Hys. now rewrite Hys.
Qed.

Lemma mapM_total {A B : Type} (f : A -> result B) (l : list A) :
  (forall x, In x l -> exists y, f x = Ok y) -> exists ys, mapM f l = Ok ys.
Proof.
  induction l as [|x l IH]; intros H; simpl; [now eexists|].
  destruct (H x (or_introl eq_refl)) as [y ->].
  destruct IH as [ys ->]; [intros z Hz; apply H; now right|].
  simpl. now eexists.
Qed.

Lemma Forall2_nth_error_seq {A : Type} (full s r : list A) (d : nat) :
  (forall k, k < length s -> nth_error full (d + k) = nth_error s k) ->
  Forall2 (fun k a => nth_error full k = Some a) (seq d (length s)) r ->
  r = s.
Proof.
  revert d r. induction s as [|a s IH]; intros d r Hs H; simpl in H.
  - now inversion H.
  - inversion H as [|? b ? r' Hb Hr']; subst.
    rewrite <- (Nat.add_0_r d), (Hs 0) in Hb by (simpl; lia).
    injection Hb as <-. f_equal. apply (IH (S d)); [|assumption].
    intros k Hk. pose proof (Hs (S k)) as E. simpl in E.
    rewrite <- E by lia. f_equal. lia.
Qed.

Lemma perm_In_lt (m : nat) (p : list nat) (v : nat) :
  Permutation (seq 0 m) p -> In v p <-> v < m.
Proof.
  intros Hperm. split; intros H.
  - apply (Permutation_in v (Permutation_sym Hperm)) in H.
    apply in_seq in H. lia.
  - apply (Permutation_in v Hperm). apply in_seq. lia.
Qed.

Lemma perm_length (m : nat) (p : list nat) :
  Permutation (seq 0 m) p -> length p = m.
Proof. intros Hperm. rewrite <- (Permutation_length Hperm). apply length_seq. Qed.

(** The positions read, [p.index(0)], [p.index(1)], ..., are [range(m)] in
    another order: the inverse permutation. *)
Lemma inverse_perm (m : nat) (p : list nat) :
  Permutation (seq 0 m) p ->
  Permutation (map (fun i => pos i p) (seq 0 m)) (seq 0 m).
Proof.
  intros Hperm. apply NoDup_Permutation_bis.
  - apply Injective_map_NoDup_in; [|apply seq_NoDup].
    intros i j Hi Hj. apply in_seq in Hi, Hj.
    apply pos_inj; apply (perm_In_lt m p _ Hperm); lia.
  - now rewrite length_map.
  - intros k Hk. apply in_map_iff in Hk. destruct Hk as [i [<- Hi]].
    apply in_seq in Hi. apply in_seq.
    assert (Hin : In i p) by (apply (perm_In_lt m p _ Hperm); lia).
    pose proof (pos_lt p i Hin). rewrite (perm_length m p Hperm) in *. lia.
Qed.

Section Rearrange.
Context {A : Type} (set_ : list A) (m : nat) (p : list nat).
Hypothesis Hlen : length set_ = m.
Hypothesis Hperm : Permutation (seq 0 m) p.

Lemma rearrange_total : exists el, rearrange set_ m p = Ok el.
Proof.
  apply mapM_total. intros i Hi. apply in_seq in Hi.
  assert (Hin : In i p) by (apply (perm_In_lt m p _ Hperm); lia).
  rewrite (index_In p i Hin). simpl. unfold getitem.
  destruct (nth_error set_ (pos i p)) as [a|] eqn:E; [now exists a|].
  apply nth_error_None in E. pose proof (pos_lt p i Hin).
  rewrite (perm_length m p Hperm) in *. lia.
Qed.

Lemma rearrange_lookup (el : list A) :
  rearrange set_ m p = Ok el ->
  Forall2 (fun i a => nth_error set_ (pos i p) = Some a) (seq 0 m) el.
Proof.
  clear Hlen.
  intros H. apply mapM_Forall2 in H.
  assert (Hin : forall i, In i (seq 0 m) -> In i p).
  { intros i Hi. apply in_seq in Hi. apply (perm_In_lt m p _ Hperm). lia. }
  revert Hin H. unfold range. generalize (seq 0 m).
  intros l Hin H. induction H as [|i a l el' Hi _ IH]; constructor.
  - rewrite (index_In p i) in Hi by (apply Hin; now left). simpl in Hi.
    unfold getitem in Hi. now destruct (nth_error set_ (pos i p)); inversion Hi.
  - apply IH. intros j Hj. apply Hin. now right.
Qed.

Lemma rearrange_perm (el : list A) :
  rearrange set_ m p = Ok el -> Permutation set_ el.
Proof.
  intros H. apply rearrange_lookup in H.
  assert (H' : Forall2 (fun k a => nth_error set_ k = Some a)
                 (map (fun i => pos i p) (seq 0 m)) el).
  { revert H. generalize (seq 0 m). intros l H.
    induction H; simpl; constructor; assumption. }
  destruct (Permutation_Forall2 (inverse_perm m p Hperm) H') as [r [Hr Hall]].
  rewrite <- Hlen in Hall.
  apply (Forall2_nth_error_seq set_ set_ r 0) in Hall; [|reflexivity].
  subst r. now symmetry.
Qed.
End Rearrange.

Lemma Forall2_In_r {A B : Type} (R : A -> B -> Prop) (l : list A) (r : list B)
    (y : B) :
  Forall2 R l r -> In y r -> exists x, In x l /\ R x y.
Proof.
  induction 1 as [|x y' l r Hxy _ IH]; intros Hy; [destruct Hy|].
  destruct Hy as [->|Hy].
  - exists x. split; [now left | assumption].
  - destruct (IH Hy) as [x' [Hx' HR]]. exists x'. split; [now right | assumption].
Qed.

(** On tuples that are permutations of [range(m)], [m > 0] even, the loop of
    [isserlis] never raises and yields one rearrangement per tuple that
    [canon] accepts, in order. *)
Lemma isserlis_loop_spec {A : Type} (set_ : list A) (m : nat)
    (ps : list (list nat)) :
  length set_ = m -> Nat.even m = true -> 0 < m ->
  (forall p, In p ps -> Permutation (seq 0 m) p) ->
  outcome (isserlis_loop set_ m ps) = None /\
  Forall2 (fun p el => rearrange set_ m p = Ok el)
          (filter (canon m) ps) (yields (isserlis_loop set_ m ps)).
Proof.
  intros Hlen He Hm. induction ps as [|p ps IH]; intros Hps; simpl.
  - split; [reflexivity | constructor].
  - assert (Hp : Permutation (seq 0 m) p) by (apply Hps; now left).
    destruct IH as [IH1 IH2]; [intros q Hq; apply Hps; now right|].
    rewrite (test_canon m p Hp He Hm).
    destruct (canon m p); [|now split].
    destruct (rearrange_total set_ m p Hlen Hp) as [el Hel]. rewrite Hel.
    simpl. split; [assumption | now constructor].
Qed.

Lemma isserlis_spec {A : Type} (set_ : list A) :
  Nat.even (length set_) = true -> 0 < length set_ ->
  outcome (isserlis set_) = None /\
  Forall2 (fun p el => rearrange set_ (length set_) p = Ok el)
          (canonical_perms (length set_)) (yields (isserlis set_)).
Proof.
  intros He Hm. apply isserlis_loop_spec; auto.
  intros p Hp. now apply permutations_In in Hp.
Qed.

Lemma isserlis_nil {A : Type} : isserlis (@nil A) = Throw ValueError.
Proof. reflexivity. Qed.

Lemma isserlis_odd {A : Type} (set_ : list A) :
  Nat.odd (length set_) = true -> isserlis set_ = Throw ValueError.
Proof.
  intros Ho. apply Nat.odd_spec in Ho. destruct Ho as [a Ha].
  unfold isserlis, permutations, range. rewrite Ha.
  destruct (permutations_n_head (seq 0 (2 * a + 1))) as [ps E].
  rewrite E. cbn [isserlis_loop]. now rewrite test_identity_odd.
Qed.

Lemma isserlis_yield_inv {A : Type} (set_ el : list A) :
  In el (yields (isserlis set_)) ->
  0 < length set_ /\ Nat.even (length set_) = true /\
  exists p, Permutation (seq 0 (length set_)) p /\
            canon (length set_) p = true /\
            rearrange set_ (length set_) p = Ok el.
Proof.
  intros Hel. destruct set_ as [|a s]; [destruct Hel|].
  destruct (Nat.even (length (a :: s))) eqn:He.
  - destruct (isserlis_spec (a :: s) He) as [_ H]; [simpl; lia|].
    destruct (Forall2_In_r _ _ _ _ H Hel) as [p [Hp Hr]].
    apply canonical_perms_In in Hp. split; [simpl; lia|]. split; [reflexivity|].
    exists p. tauto.
  - rewrite isserlis_odd in Hel; [destruct Hel|].
    now rewrite <- Nat.negb_even, He.
Qed.

(** ** Pairings of positions *)





(** ** [isserlis_stationary] *)

Lemma stationary_loop_inv (m : nat) (g : gen (list Z)) (s : list nat) :
  In s (yields (isserlis_stationary_loop m g)) ->
  exists el, In el (yields g) /\ shape_of m el = Ok s.
Proof.
  induction g as [|el g IH|e]; simpl; try tauto.
  destruct (shape_of m el) as [s'|e] eqn:E; simpl; [|tauto].
  intros [<-|H].
  - exists el. split; [now left | assumption].
  - destruct (IH H) as [el' [H1 H2]]. exists el'. split; [now right | assumption].
Qed.

Lemma stationary_loop_total (m : nat) (g : gen (list Z)) :
  outcome g = None ->
  (forall el, In el (yields g) -> exists s, shape_of m el = Ok s) ->
  outcome (isserlis_stationary_loop m g) = None /\
  Forall2 (fun el s => shape_of m el = Ok s)
          (yields g) (yields (isserlis_stationary_loop m g)).
Proof.
  induction g as [|el g IH|e]; simpl; intros Ho Ht.
  - split; [reflexivity | constructor].
  - destruct (Ht el (or_introl eq_refl)) as [s Hs]. rewrite Hs. simpl.
    destruct IH as [IH1 IH2]; [assumption | intros; apply Ht; now right |].
    split; [assumption | now constructor].
  - discriminate.
Qed.

Lemma range_step2_length (n : nat) : length (range_step2 (2 * n)) = n.
Proof.
  induction n as [|n IH]; [reflexivity|].
  replace (2 * S n) with (S (S (2 * n))) by lia.
  rewrite range_step2_SS. cbn [length]. now rewrite length_map, IH.
Qed.

Lemma lags_spec (m : nat) (el l : list Z) :
  lags m el = Ok l ->
  length l = length (range_step2 m) /\ forall x, In x l -> (0 <= x)%Z.
Proof.
  unfold lags. rewrite mapM_Forall2. generalize (range_step2 m). intros js H.
  induction H as [|j x js l Hx _ [IH1 IH2]]; simpl.
  - split; [reflexivity | tauto].
  - split; [now rewrite IH1|]. intros y [<-|Hy]; [|now apply IH2].
    destruct (getitem el (j + 1)) as [a|]; [|discriminate].
    destruct (getitem el j) as [b|]; [|discriminate].
    simpl in Hx. injection Hx as <-. apply Z.abs_nonneg.
Qed.

Lemma lags_total (m : nat) (el : list Z) :
  Nat.even m = true -> length el = m -> exists l, lags m el = Ok l.
Proof.
  intros He Hlen. apply mapM_total. intros j Hj. apply range_step2_In in Hj.
  destruct Hj as [Hj Hev]. pose proof (even_succ_lt m j He Hev Hj) as Hj1.
  unfold getitem.
  destruct (nth_error el (j + 1)) as [a|] eqn:Ea;
    [|apply nth_error_None in Ea; lia].
  destruct (nth_error el j) as [b|] eqn:Eb;
    [|apply nth_error_None in Eb; lia].
  simpl. now eexists.
Qed.

Lemma fold_max_spec (l : list Z) (x : Z) :
  (x <= fold_left Z.max l x)%Z /\
  (forall y, In y l -> (y <= fold_left Z.max l x)%Z) /\
  In (fold_left Z.max l x) (x :: l).
Proof.
  revert x. induction l as [|a l IH]; intros x; simpl.
  - repeat split; [lia | tauto | now left].
  - destruct (IH (Z.max x a)) as [H1 [H2 H3]]. repeat split.
    + lia.
    + intros y [<-|Hy]; [lia | now apply H2].
    + destruct H3 as [H3|H3]; [|now (right; right)].
      rewrite <- H3. destruct (Z.max_spec x a) as [[_ ->]|[_ ->]]; auto.
Qed.

Lemma max_list_spec (l : list Z) (M : Z) :
  max_list l = Ok M -> In M l /\ forall y, In y l -> (y <= M)%Z.
Proof.
  destruct l as [|x l]; simpl; [discriminate|]. intros [= <-].
  destruct (fold_max_spec l x) as [H1 [H2 H3]]. split; [exact H3|].
  intros y [<-|Hy]; [exact H1 | now apply H2].
Qed.

Lemma list_sum_map_add {A : Type} (f g : A -> nat) (l : list A) :
  list_sum (map (fun i => f i + g i) l) = list_sum (map f l) + list_sum (map g l).
Proof. induction l as [|x l IH]; simpl; [reflexivity | rewrite IH; lia]. Qed.

Lemma indicator_sum (x : Z) (s len : nat) :
  list_sum (map (fun i => if (i =? x)%Z then 1 else 0) (map Z.of_nat (seq s len)))
  = if ((Z.of_nat s <=? x) && (x <? Z.of_nat (s + len)))%Z then 1 else 0.
Proof.
  revert s. induction len as [|len IH]; intros s; simpl.
  - destruct (Z.leb_spec (Z.of_nat s) x), (Z.ltb_spec x (Z.of_nat (s + 0)));
      simpl; try reflexivity; lia.
  - rewrite IH.
    destruct (Z.eqb_spec (Z.of_nat s) x), (Z.leb_spec (Z.of_nat (S s)) x),
      (Z.ltb_spec x (Z.of_nat (S s + len))), (Z.leb_spec (Z.of_nat s) x),
      (Z.ltb_spec x (Z.of_nat (s + S len))); simpl; try reflexivity; lia.
Qed.

Lemma count_cons (x : Z) (l : list Z) (i : Z) :
  count (x :: l) i = (if (i =? x)%Z then 1 else 0) + count l i.
Proof. unfold count. simpl. now destruct (i =? x)%Z. Qed.

(** Every lag between [0] and the maximum is counted once. *)
Lemma count_sum (l : list Z) (M : Z) :
  (forall x, In x l -> (0 <= x < M)%Z) ->
  list_sum (map (count l) (rangeZ M)) = length l.
Proof.
  induction l as [|x l IH]; intros H.
  - unfold count. simpl. induction (rangeZ M); simpl; auto.
  - rewrite (map_ext _ _ (count_cons x l)), list_sum_map_add.
    rewrite IH by (intros y Hy; apply H; now right).
    unfold rangeZ at 1. rewrite indicator_sum.
    specialize (H x (or_introl eq_refl)).
    destruct (Z.leb_spec (Z.of_nat 0) x), (Z.ltb_spec x (Z.of_nat (0 + Z.to_nat M)));
      simpl; try reflexivity; lia.
Qed.

Lemma count_pos (l : list Z) (x : Z) : In x l -> 0 < count l x.
Proof.
  induction l as [|y l IH]; [intros []|]. rewrite count_cons.
  intros [->|H]; [rewrite Z.eqb_refl; lia|]. specialize (IH H). lia.
Qed.

Lemma shape_of_sum (n : nat) (el : list Z) (s : list nat) :
  shape_of (2 * n) el = Ok s -> list_sum s = n.
Proof.
  unfold shape_of. destruct (lags (2 * n) el) as [l|] eqn:El; [|discriminate].
  simpl. destruct (max_list l) as [M|] eqn:EM; [|discriminate]. simpl.
  intros [= <-]. apply lags_spec in El. destruct El as [Hlen Hpos].
  apply max_list_spec in EM. destruct EM as [_ Hmax].
  rewrite count_sum, Hlen; [apply range_step2_length|].
  intros x Hx. specialize (Hpos x Hx). specialize (Hmax x Hx). lia.
Qed.

Lemma shape_of_last (m : nat) (el : list Z) (s : list nat) :
  shape_of m el = Ok s ->
  exists l M, lags m el = Ok l /\ max_list l = Ok M /\
              Z.of_nat (length s) = (M + 1)%Z /\
              s = map (count l) (rangeZ M) ++ [count l M] /\ 0 < count l M.
Proof.
  unfold shape_of. destruct (lags m el) as [l|] eqn:El; [|discriminate].
  simpl. destruct (max_list l) as [M|] eqn:EM; [|discriminate]. simpl.
  intros [= <-]. exists l, M. apply lags_spec in El. destruct El as [_ Hpos].
  pose proof (max_list_spec l M EM) as [HM _]. specialize (Hpos M HM).
  assert (E : rangeZ (M + 1) = rangeZ M ++ [M]).
  { unfold rangeZ. replace (Z.to_nat (M + 1)) with (S (Z.to_nat M)) by lia.
    rewrite seq_S, map_app. simpl. f_equal. f_equal. lia. }
  split; [reflexivity|]. split; [exact EM|]. split; [|split].
  - rewrite length_map. unfold rangeZ. rewrite length_map, length_seq. lia.
  - now rewrite E, map_app.
  - now apply count_pos.
Qed.

(** ** [isserlis_stationary_analytical] *)

Lemma correspondances_not_In (l : list string) (s : nat) (d : gmap string Z)
    (a : string) :
  ~ In a l ->
  correspondances_from d (combine (seq s (length l)) l) !! a = d !! a.
Proof.
  revert s d. induction l as [|x l IH]; intros s d Ha; [reflexivity|].
  simpl. unfold correspondances_from in *. simpl. rewrite IH by (simpl in Ha; tauto).
  apply lookup_insert_ne. simpl in Ha. intros ->. tauto.
Qed.

Lemma correspondances_lookup (l : list string) (s k : nat) (d : gmap string Z)
    (a : string) :
  NoDup l -> nth_error l k = Some a ->
  correspondances_from d (combine (seq s (length l)) l) !! a
  = Some (2 ^ Z.of_nat (s + k) - 1)%Z.
Proof.
  intros Hnd. revert s k d.
  induction Hnd as [|x l Hx Hnd IH]; intros s [|k] d; simpl; try discriminate.
  - intros [= ->]. unfold correspondances_from. simpl.
    fold (correspondances_from (<[a:=(2 ^ Z.of_nat s - 1)%Z]> d)
            (combine (seq (S s) (length l)) l)).
    rewrite correspondances_not_In by assumption.
    rewrite lookup_insert_eq. do 3 f_equal. lia.
  - intros Hk. unfold correspondances_from. simpl.
    fold (correspondances_from (<[x:=(2 ^ Z.of_nat s - 1)%Z]> d)
            (combine (seq (S s) (length l)) l)).
    rewrite (IH (S s) k) by assumption. do 3 f_equal. lia.
Qed.

Lemma correspondances_inv (l : list string) (a : string) (v : Z) :
  NoDup l ->
  correspondances_from ∅ (enumerate l) !! a = Some v ->
  exists k, nth_error l k = Some a /\ v = (2 ^ Z.of_nat k - 1)%Z.
Proof.
  intros Hnd H. unfold enumerate in H.
  destruct (in_dec String.string_dec a l) as [Hin|Hin].
  - apply In_nth_error in Hin. destruct Hin as [k Hk]. exists k.
    rewrite (correspondances_lookup l 0 k ∅ a Hnd Hk) in H.
    simpl in H. injection H as <-. split; [assumption | reflexivity].
  - rewrite correspondances_not_In in H by assumption.
    rewrite lookup_empty in H. discriminate.
Qed.

(** *** The labels [2**k - 1] have pairwise distinct differences *)

Lemma pw_S (k : nat) : pw (S k) = (2 * pw k)%Z.
Proof. unfold pw. rewrite Nat2Z.inj_succ, Z.pow_succ_r; lia. Qed.

Lemma pw_add (a b : nat) : pw (a + b) = (pw a * pw b)%Z.
Proof. unfold pw. rewrite Nat2Z.inj_add, Z.pow_add_r; lia. Qed.

Lemma pw_pos (k : nat) : (0 < pw k)%Z.
Proof. unfold pw. apply Z.pow_pos_nonneg; lia. Qed.

Lemma pw_lt (a b : nat) : a < b -> (pw a < pw b)%Z.
Proof. intros H. unfold pw. apply Z.pow_lt_mono_r; lia. Qed.

Lemma pw_inj (a b : nat) : pw a = pw b -> a = b.
Proof.
  intros H. destruct (Nat.lt_trichotomy a b) as [Hlt|[->|Hlt]]; [|reflexivity|];
    apply pw_lt in Hlt; lia.
Qed.

Lemma pw_diff_lt (j d f e : nat) :
  (pw (j + S d) - pw j)%Z <> (pw (j + S f + S e) - pw (j + S f))%Z.
Proof.
  rewrite !pw_add, !pw_S. pose proof (pw_pos j) as Hj.
  intros E.
  assert (E' : (pw j * (2 * pw d - 1) = pw j * (2 * (pw f * (2 * pw e - 1))))%Z)
    by lia.
  apply Z.mul_reg_l in E'; lia.
Qed.

Lemma pw_diff_unique (i j k l : nat) :
  j < i -> l < k -> (pw i - pw j)%Z = (pw k - pw l)%Z -> i = k /\ j = l.
Proof.
  intros Hji Hlk E. destruct (Nat.lt_trichotomy j l) as [Hlt|[->|Hlt]].
  - exfalso. pose proof (pw_diff_lt j (i - j - 1) (l - j - 1) (k - l - 1)) as H.
    replace (j + S (i - j - 1)) with i in H by lia.
    replace (j + S (l - j - 1) + S (k - l - 1)) with k in H by lia.
    replace (j + S (l - j - 1)) with l in H by lia.
    contradiction.
  - split; [|reflexivity]. apply pw_inj. lia.
  - exfalso. pose proof (pw_diff_lt l (k - l - 1) (j - l - 1) (i - j - 1)) as H.
    replace (l + S (k - l - 1)) with k in H by lia.
    replace (l + S (j - l - 1) + S (i - j - 1)) with i in H by lia.
    replace (l + S (j - l - 1)) with j in H by lia.
    symmetry in E. contradiction.
Qed.

Lemma pw_absdiff_unique (i j k l : nat) :
  i <> j -> k <> l ->
  Z.abs ((pw i - 1) - (pw j - 1)) = Z.abs ((pw k - 1) - (pw l - 1)) ->
  (i = k /\ j = l) \/ (i = l /\ j = k).
Proof.
  intros Hij Hkl E.
  destruct (Nat.lt_gt_cases i j) as [H _]. destruct (H Hij) as [H1|H1]; clear H;
  destruct (Nat.lt_gt_cases k l) as [H _]; destruct (H Hkl) as [H2|H2]; clear H;
  pose proof (pw_lt _ _ H1); pose proof (pw_lt _ _ H2).
  - destruct (pw_diff_unique j i l k H1 H2); [lia | lia].
  - destruct (pw_diff_unique j i k l H1 H2); [lia | lia].
  - destruct (pw_diff_unique i j l k H1 H2); [lia | lia].
  - destruct (pw_diff_unique i j k l H1 H2); [lia | lia].
Qed.

(** ** Runs over a store *)

Lemma isserlis_run_loop_spec {A : Type} (set_ : list A) (r : loc) (n : nat)
    (ps : list (list nat)) (h : gmap loc (list A)) :
  h !! r = Some set_ ->
  exists h' g,
    isserlis_run_loop h r n ps = Some (h', g) /\
    (forall l v, h !! l = Some v -> h' !! l = Some v) /\
    contents h' g = map Some (yields (isserlis_loop set_ n ps)) /\
    outcome g = outcome (isserlis_loop set_ n ps).
Proof.
  revert h. induction ps as [|p ps IH]; intros h Hr; simpl.
  - exists h, Stop. auto.
  - destruct (test n p) as [[|]|e].
    + rewrite Hr. destruct (rearrange set_ n p) as [el|e].
      * set (l := fresh (dom h)).
        assert (Hl : h !! l = None).
        { apply not_elem_of_dom. apply is_fresh. }
        assert (Hr' : <[l:=el]> h !! r = Some set_).
        { rewrite lookup_insert_ne; [assumption | congruence]. }
        destruct (IH _ Hr') as [h' [g [E [Hkeep [Hc Ho]]]]].
        rewrite E. exists h', (Yield l g). split; [reflexivity|].
        split; [|split].
        -- intros l0 v Hv. apply Hkeep. rewrite lookup_insert_ne; [assumption|].
           congruence.
        -- unfold contents in *. simpl. rewrite Hc. f_equal.
           apply Hkeep. apply lookup_insert_eq.
        -- assumption.
      * exists h, (Throw e). auto.
    + now apply IH.
    + exists h, (Throw e). auto.
Qed.

Lemma isserlis_run_spec {A : Type} (set_ : list A) (r : loc)
    (h : gmap loc (list A)) :
  h !! r = Some set_ ->
  exists h' g,
    isserlis_run h r = Some (h', g) /\
    (forall l v, h !! l = Some v -> h' !! l = Some v) /\
    contents h' g = map Some (yields (isserlis set_)) /\
    outcome g = outcome (isserlis set_).
Proof.
  intros Hr. unfold isserlis_run. rewrite Hr. now apply isserlis_run_loop_spec.
Qed.

(** ** The embedding on the script's own examples

    The docstring of [isserlis] reads [[1,2,1,3]] as the partition
    [{{1,2},{1,3}}]; the module docstring expands
    [E{X_t^2 X_{t+t_1}^2 X_{t+t_2}^2 X_{t+t_3}^2}], labelled
    [[0,0,1,1,3,3,7,7]], into 17 terms whose coefficients add up to 105. *)

Example isserlis_two : isserlis [1; 2]%Z = Yield [1; 2]%Z Stop.
Proof. reflexivity. Qed.

Example isserlis_four :
  yields (isserlis [1; 1; 2; 3]%Z)
  = [[1; 1; 2; 3]; [1; 2; 1; 3]; [1; 3; 1; 2]]%Z.
Proof. reflexivity. Qed.

Example isserlis_repeated :
  yields (isserlis [1; 1; 2; 2]%Z)
  = [[1; 1; 2; 2]; [1; 2; 1; 2]; [1; 2; 1; 2]]%Z.
Proof. reflexivity. Qed.

Example docstring_terms :
  let shapes := yields (isserlis_stationary [0; 0; 1; 1; 3; 3; 7; 7]%Z) in
  length shapes = 105 /\
  length (nodup (list_eq_dec Nat.eq_dec) shapes) = 17 /\
  count_occ (list_eq_dec Nat.eq_dec) shapes [4] = 1 /\
  count_occ (list_eq_dec Nat.eq_dec) shapes [2; 0; 0; 0; 2] = 2 /\
  count_occ (list_eq_dec Nat.eq_dec) shapes [0; 2; 0; 0; 2] = 4 /\
  count_occ (list_eq_dec Nat.eq_dec) shapes [1; 1; 0; 0; 0; 0; 1; 1] = 8 /\
  count_occ (list_eq_dec Nat.eq_dec) shapes [0; 1; 0; 1; 1; 0; 1] = 16.
Proof. vm_compute. repeat split; reflexivity. Qed.

(** * The claims *)


Lemma even_double (n : nat) : Nat.even (2 * n) = true.
Proof. apply Nat.even_spec. now exists n. Qed.

Lemma isserlis_yield_length {A : Type} (set_ el : list A) :
  In el (yields (isserlis set_)) -> length el = length set_.
Proof.
  intros H. apply isserlis_yield_inv in H.
  destruct H as [_ [_ [p [Hp [_ Hr]]]]].
  apply (rearrange_lookup set_ (length set_) p Hp) in Hr.
  apply Forall2_length in Hr. now rewrite length_seq in Hr.
Qed.

Lemma isserlis_yields_count {A : Type} (set_ : list A) (n : nat) :
  0 < n -> length set_ = 2 * n ->
  length (yields (isserlis set_)) = dfact (2 * n - 1).
Proof.
  intros Hn Hlen. pose proof (even_double n) as He.
  destruct (isserlis_spec set_) as [_ Hy]; rewrite ?Hlen; try assumption; [lia|].
  rewrite Hlen in Hy. rewrite <- (Forall2_length Hy).
  apply canonical_perms_length.
Qed.




(** C3: every partition yielded by [isserlis] is a rearrangement of the
    input: it holds the same elements with the same multiplicities. *)
Theorem isserlis_yields_rearrangement {A : Type} (set_ el : list A) :
  In el (yields (isserlis set_)) -> Permutation set_ el.
Proof.
  intros H. apply isserlis_yield_inv in H.
  destruct H as [_ [_ [p [Hp [_ Hr]]]]].
  exact (rearrange_perm set_ (length set_) p eq_refl Hp el Hr).
Qed.

Lemma isserlis_yields_rearrangement_witness :
  In [1; 2; 1; 2]%Z (yields (isserlis [1; 1; 2; 2]%Z)) /\
  Permutation [1; 1; 2; 2]%Z [1; 2; 1; 2]%Z.
Proof.
  assert (H : In [1; 2; 1; 2]%Z (yields (isserlis [1; 1; 2; 2]%Z)))
    by (simpl; right; left; reflexivity).
  split; [exact H|].
  exact (isserlis_yields_rearrangement [1; 1; 2; 2]%Z [1; 2; 1; 2]%Z H).
Defined.

(** C5: on an input of odd length [isserlis] raises before it yields
    anything: [test] fails on the first permutation (the identity), where
    [t.index(j+1)] looks for the value [len(set_)]. The exception is Python's
    ValueError. *)
Theorem isserlis_odd_raises {A : Type} (set_ : list A) :
  Nat.odd (length set_) = true ->
  isserlis set_ = Throw ValueError /\
  yields (isserlis set_) = [] /\ outcome (isserlis set_) = Some ValueError.
Proof. intros H. now rewrite (isserlis_odd set_ H). Qed.

Lemma isserlis_odd_raises_witness :
  Nat.odd (length [1; 2; 3]%Z) = true /\
  isserlis [1; 2; 3]%Z = Throw ValueError.
Proof.
  split; [reflexivity|].
  exact (proj1 (isserlis_odd_raises [1; 2; 3]%Z eq_refl)).
Defined.

(** C6, as amended: on the empty input [isserlis] raises ValueError (from
    [t.index(0)] on the empty tuple) before yielding any partition, and
    [isserlis_stationary] passes the exception on before yielding any shape. *)
Theorem isserlis_empty_raises (A : Type) :
  isserlis (@nil A) = Throw ValueError /\
  isserlis_stationary [] = Throw ValueError.
Proof. split; reflexivity. Qed.

(** C6 as stated fails: the empty input yields no partition and ends in an
    exception. *)
Lemma isserlis_empty_not_one :
  ~ (length (yields (isserlis (@nil Z))) = 1 /\
     outcome (isserlis (@nil Z)) = None).
Proof. intros [H _]. discriminate H. Qed.

(** C9: on a non-empty input, every permutation [isserlis] accepts has the
    value [0] at position [0], and every partition yielded starts with the
    first element of the input. *)
Theorem isserlis_first_fixed {A : Type} (set_ : list A) :
  set_ <> [] ->
  (forall p, In p (accepted (length set_)) -> index p 0 = Ok 0) /\
  (forall el, In el (yields (isserlis set_)) ->
              nth_error el 0 = nth_error set_ 0).
Proof.
  intros Hne.
  assert (Hm : 0 < length set_) by (destruct set_; [contradiction | simpl; lia]).
  split.
  - intros p Hp. unfold accepted in Hp. apply filter_In in Hp.
    destruct Hp as [Hp Ht]. apply permutations_In in Hp. unfold passes in Ht.
    destruct (Nat.even (length set_)) eqn:He.
    + rewrite (test_canon _ p Hp He Hm) in Ht.
      pose proof (canon_pos0 _ p Hp He Hm Ht) as H0.
      rewrite index_In, H0; [reflexivity|].
      apply (perm_In_lt _ p 0 Hp). exact Hm.
    + exfalso. unfold test in Ht.
      rewrite index_In in Ht by (apply (perm_In_lt _ p 0 Hp); exact Hm).
      cbn [bind] in Ht.
      assert (Hlast : In (length set_ - 1) (range_step2 (length set_))).
      { apply range_step2_In. split; [lia|].
        destruct (length set_) as [|m]; [lia|].
        rewrite Nat.even_succ, <- Nat.negb_even in He.
        apply negb_false_iff in He. now replace (S m - 1) with m by lia. }
      revert Ht Hlast. generalize (pos 0 p). generalize (range_step2 (length set_)).
      intros js. induction js as [|j js IH]; intros i Ht Hin; [destruct Hin|].
      cbn [test_loop] in Ht.
      destruct (index p j) as [a|]; [|discriminate]. cbn [bind] in Ht.
      destruct (a <? i); [discriminate|].
      destruct Hin as [->|Hin].
      * rewrite index_not_In in Ht; [discriminate|].
        rewrite (perm_In_lt _ p _ Hp). lia.
      * destruct (index p (j + 1)) as [b|]; [|discriminate]. cbn [bind] in Ht.
        destruct (b <? a); [discriminate|]. now apply (IH a).
  - intros el Hel. apply isserlis_yield_inv in Hel.
    destruct Hel as [_ [He [p [Hp [Hc Hr]]]]].
    pose proof (canon_pos0 _ p Hp He Hm Hc) as H0.
    apply (rearrange_lookup set_ (length set_) p Hp) in Hr.
    destruct (length set_) as [|m]; [lia|]. simpl in Hr.
    inversion Hr as [|? a ? el' Ha _]; subst. rewrite H0 in Ha. now rewrite Ha.
Qed.

Lemma isserlis_first_fixed_witness :
  [1; 1; 2; 2]%Z <> [] /\
  index [0; 2; 1; 3] 0 = Ok 0 /\
  nth_error [1; 2; 1; 2]%Z 0 = nth_error [1; 1; 2; 2]%Z 0.
Proof.
  assert (Hne : [1; 1; 2; 2]%Z <> []) by discriminate.
  split; [exact Hne|].
  destruct (isserlis_first_fixed [1; 1; 2; 2]%Z Hne) as [Hp Hel].
  split.
  - apply Hp. simpl. right. left. reflexivity.
  - apply Hel. simpl. right. left. reflexivity.
Defined.

Lemma shape_of_total (m : nat) (el : list Z) :
  Nat.even m = true -> 0 < m -> length el = m -> exists s, shape_of m el = Ok s.
Proof.
  intros He Hm Hlen. unfold shape_of.
  destruct (lags_total m el He Hlen) as [l Hl]. rewrite Hl. cbn [bind].
  apply lags_spec in Hl. destruct Hl as [Hll _].
  destruct l as [|x l].
  - destruct m as [|[|m]]; [lia | discriminate He |].
    rewrite range_step2_SS in Hll. discriminate Hll.
  - simpl. now eexists.
Qed.

Lemma isserlis_stationary_spec (set_ : list Z) :
  Nat.even (length set_) = true -> 0 < length set_ ->
  outcome (isserlis_stationary set_) = None /\
  Forall2 (fun el s => shape_of (length set_) el = Ok s)
          (yields (isserlis set_)) (yields (isserlis_stationary set_)).
Proof.
  intros He Hm. apply stationary_loop_total.
  - now apply isserlis_spec.
  - intros el Hel. apply shape_of_total; try assumption.
    now apply isserlis_yield_length.
Qed.

(** C2: on an integer input of even length [2n], the entries of every shape
    yielded by [isserlis_stationary] sum to [n]; and for [n >= 1] the
    generator ends without an exception after [(2n-1)!!] shapes. *)
Theorem stationary_shape_sum (set_ : list Z) (n : nat) :
  length set_ = 2 * n ->
  Forall (fun s => list_sum s = n) (yields (isserlis_stationary set_)) /\
  (0 < n -> outcome (isserlis_stationary set_) = None /\
            length (yields (isserlis_stationary set_)) = dfact (2 * n - 1)).
Proof.
  intros Hlen. split.
  - apply Forall_forall. intros s Hs. apply stationary_loop_inv in Hs.
    destruct Hs as [el [_ Hs]]. rewrite Hlen in Hs. now apply shape_of_sum in Hs.
  - intros Hn. pose proof (even_double n) as He. rewrite <- Hlen in He.
    destruct (isserlis_stationary_spec set_ He) as [Ho Hy]; [lia|].
    split; [assumption|]. rewrite <- (Forall2_length Hy).
    now apply isserlis_yields_count.
Qed.

Lemma stationary_shape_sum_witness :
  length [0; 0; 1; 1]%Z = 2 * 2 /\
  Forall (fun s => list_sum s = 2) (yields (isserlis_stationary [0; 0; 1; 1]%Z)).
Proof.
  split; [reflexivity|].
  exact (proj1 (stationary_shape_sum [0; 0; 1; 1]%Z 2 eq_refl)).
Defined.

(** C10: every shape yielded by [isserlis_stationary] comes from a yielded
    partition whose lags [l] have the maximum [M]: [M] is one of the lags
    and no lag is larger. The shape has exactly [M + 1] entries and its last
    entry, the count of [M] in [l], is positive. (Only non-empty inputs of
    even length yield shapes at all.) *)
Theorem stationary_shape_last_positive (set_ : list Z) (s : list nat) :
  In s (yields (isserlis_stationary set_)) ->
  exists el l M,
    In el (yields (isserlis set_)) /\
    lags (length set_) el = Ok l /\ max_list l = Ok M /\
    In M l /\ (forall y, In y l -> (y <= M)%Z) /\
    Z.of_nat (length s) = (M + 1)%Z /\
    s = map (count l) (rangeZ M) ++ [count l M] /\ 0 < count l M.
Proof.
  intros Hs. apply stationary_loop_inv in Hs. destruct Hs as [el [Hel Hs]].
  apply shape_of_last in Hs. destruct Hs as [l [M [Hl [HM H]]]].
  destruct (max_list_spec l M HM) as [Hin Hmax].
  exists el, l, M. tauto.
Qed.

Lemma stationary_shape_last_positive_witness :
  In [0; 2] (yields (isserlis_stationary [0; 0; 1; 1]%Z)) /\
  exists el l M,
    In el (yields (isserlis [0; 0; 1; 1]%Z)) /\
    lags 4 el = Ok l /\ max_list l = Ok M /\
    In M l /\ (forall y, In y l -> (y <= M)%Z) /\
    Z.of_nat (length [0; 2]) = (M + 1)%Z /\
    [0; 2] = map (count l) (rangeZ M) ++ [count l M] /\ 0 < count l M.
Proof.
  assert (H : In [0; 2] (yields (isserlis_stationary [0; 0; 1; 1]%Z)))
    by (simpl; right; left; reflexivity).
  split; [exact H|].
  exact (stationary_shape_last_positive [0; 0; 1; 1]%Z [0; 2] H).
Defined.

Lemma dict_get_Ok (d : gmap string Z) (k : string) (v : Z) :
  dict_get d k = Ok v <-> d !! k = Some v.
Proof.
  unfold dict_get. destruct (d !! k) as [w|]; split; intros H;
    try discriminate; congruence.
Qed.

(** C4: the labels are the values [2**k - 1], [k] the rank of the token in
    the enumeration of the set, and the absolute difference of the labels of
    two distinct tokens determines the unordered pair: equal differences
    [|va-vb| = |vc-vd|] force [{a,b} = {c,d}]. In particular four pairwise
    distinct tokens never give equal differences. *)
Theorem labels_differences_unique (set_elements : list string)
    (a b c d : string) (va vb vc vd : Z) :
  NoDup set_elements ->
  dict_get (correspondances_from ∅ (enumerate set_elements)) a = Ok va ->
  dict_get (correspondances_from ∅ (enumerate set_elements)) b = Ok vb ->
  dict_get (correspondances_from ∅ (enumerate set_elements)) c = Ok vc ->
  dict_get (correspondances_from ∅ (enumerate set_elements)) d = Ok vd ->
  a <> b -> c <> d ->
  (exists k, nth_error set_elements k = Some a /\ va = (2 ^ Z.of_nat k - 1)%Z) /\
  (Z.abs (va - vb) = Z.abs (vc - vd) ->
   (a = c /\ b = d) \/ (a = d /\ b = c)).
Proof.
  intros Hnd Ha Hb Hc Hd Hab Hcd. rewrite dict_get_Ok in Ha, Hb, Hc, Hd.
  destruct (correspondances_inv _ _ _ Hnd Ha) as [i [Hi ->]].
  destruct (correspondances_inv _ _ _ Hnd Hb) as [j [Hj ->]].
  destruct (correspondances_inv _ _ _ Hnd Hc) as [k [Hk ->]].
  destruct (correspondances_inv _ _ _ Hnd Hd) as [l [Hl ->]].
  split; [now exists i|]. intros E.
  destruct (pw_absdiff_unique i j k l) as [[-> ->]|[-> ->]];
    try exact E; try congruence.
  - left. split; congruence.
  - right. split; congruence.
Qed.

Lemma labels_differences_unique_witness :
  NoDup ["t"; "t+t_1"; "t+t_2"]%string /\
  Z.abs (0 - 3) = Z.abs (3 - 0) /\
  (("t" = "t+t_2" /\ "t+t_2" = "t")%string \/
   ("t" = "t" /\ "t+t_2" = "t+t_2")%string).
Proof.
  assert (Hnd : NoDup ["t"; "t+t_1"; "t+t_2"]%string)
    by (repeat constructor; simpl; intuition discriminate).
  split; [exact Hnd|]. split; [reflexivity|].
  refine (proj2 (labels_differences_unique ["t"; "t+t_1"; "t+t_2"]%string
                   "t" "t+t_2" "t+t_2" "t" 0 3 3 0
                   Hnd eq_refl eq_refl eq_refl eq_refl _ _) eq_refl);
    discriminate.
Defined.

(** C7, as amended: whichever way the set of the two tokens is enumerated,
    the labels are [0] and [1] in that order, so the mapped sequence is
    [[0,0,1,1]] when [t] comes first and [[1,1,0,0]] otherwise, and in both
    cases the reduction yields the three shapes [(2,)], [(0,2)], [(0,2)],
    each with entries summing to [2]. *)
Theorem analytical_two_tokens (set_elements : list string) :
  NoDup set_elements ->
  (forall x, In x set_elements <-> In x scenario4) ->
  exists nums g,
    isserlis_stationary_analytical set_elements scenario4 = Ok (nums, g) /\
    ((set_elements = ["t"; "t+t_1"]%string /\ nums = [0; 0; 1; 1]%Z) \/
     (set_elements = ["t+t_1"; "t"]%string /\ nums = [1; 1; 0; 0]%Z)) /\
    g = Yield [2] (Yield [0; 2] (Yield [0; 2] Stop)) /\
    Forall (fun s => list_sum s = 2) (yields g).
Proof.
  intros Hnd Hin.
  assert (Hel : forall x, In x set_elements -> x = "t"%string \/ x = "t+t_1"%string).
  { intros x Hx. apply Hin in Hx. simpl in Hx. intuition. }
  assert (Ht : In "t"%string set_elements) by (apply Hin; simpl; auto).
  assert (Ht1 : In "t+t_1"%string set_elements) by (apply Hin; simpl; auto 6).
  assert (E : set_elements = ["t"; "t+t_1"]%string
              \/ set_elements = ["t+t_1"; "t"]%string).
  { destruct set_elements as [|x [|y [|z r]]].
    - destruct Ht.
    - destruct Ht as [Hx|[]], Ht1 as [Hx1|[]]. congruence.
    - apply NoDup_cons_iff in Hnd. destruct Hnd as [Hxy _].
      destruct (Hel x (or_introl eq_refl)) as [->| ->],
        (Hel y (or_intror (or_introl eq_refl))) as [->| ->]; auto;
        exfalso; apply Hxy; now left.
    - exfalso. apply NoDup_cons_iff in Hnd. destruct Hnd as [Hx Hnd].
      apply NoDup_cons_iff in Hnd. destruct Hnd as [Hy _].
      destruct (Hel x (or_introl eq_refl)) as [->| ->],
        (Hel y (or_intror (or_introl eq_refl))) as [->| ->],
        (Hel z (or_intror (or_intror (or_introl eq_refl)))) as [->| ->];
        simpl in Hx, Hy; tauto. }
  destruct E as [-> | ->].
  - exists [0; 0; 1; 1]%Z, (Yield [2] (Yield [0; 2] (Yield [0; 2] Stop))).
    split; [reflexivity|]. split; [now left|]. split; [reflexivity|].
    repeat constructor.
  - exists [1; 1; 0; 0]%Z, (Yield [2] (Yield [0; 2] (Yield [0; 2] Stop))).
    split; [reflexivity|]. split; [now right|]. split; [reflexivity|].
    repeat constructor.
Qed.

Lemma analytical_two_tokens_witness :
  NoDup ["t"; "t+t_1"]%string /\
  (forall x, In x ["t"; "t+t_1"]%string <-> In x scenario4) /\
  exists nums g,
    isserlis_stationary_analytical ["t"; "t+t_1"]%string scenario4
    = Ok (nums, g) /\
    ((["t"; "t+t_1"]%string = ["t"; "t+t_1"]%string /\ nums = [0; 0; 1; 1]%Z) \/
     (["t"; "t+t_1"]%string = ["t+t_1"; "t"]%string /\ nums = [1; 1; 0; 0]%Z)) /\
    g = Yield [2] (Yield [0; 2] (Yield [0; 2] Stop)) /\
    Forall (fun s => list_sum s = 2) (yields g).
Proof.
  assert (Hnd : NoDup ["t"; "t+t_1"]%string)
    by (repeat constructor; simpl; intuition discriminate).
  assert (Hin : forall x, In x ["t"; "t+t_1"]%string <-> In x scenario4)
    by (intros x; simpl; tauto).
  split; [exact Hnd|]. split; [exact Hin|].
  exact (analytical_two_tokens ["t"; "t+t_1"]%string Hnd Hin).
Defined.

(** C7 as stated fails: with [t] labelled [0] and [t+t_1] labelled [1], no
    shape [(1,1)] is yielded. *)
Lemma analytical_no_shape_1_1 :
  ~ In [1; 1]
       (shapes_yielded
          (isserlis_stationary_analytical ["t"; "t+t_1"]%string scenario4)).
Proof. intros H. vm_compute in H. intuition discriminate. Qed.

(** C8: a run of [isserlis] leaves every list object that existed before it,
    the input among them, unchanged; the lists it yields are those of
    [isserlis] on the input's contents; and a second run on the same input
    yields the same lists again and ends the same way. *)
Theorem isserlis_run_deterministic {A : Type} (h : gmap loc (list A))
    (r : loc) (set_ : list A) :
  h !! r = Some set_ ->
  exists h1 g1 h2 g2,
    isserlis_run h r = Some (h1, g1) /\
    isserlis_run h1 r = Some (h2, g2) /\
    (forall l v, h !! l = Some v -> h1 !! l = Some v /\ h2 !! l = Some v) /\
    contents h1 g1 = map Some (yields (isserlis set_)) /\
    Permutation (contents h1 g1) (contents h2 g2) /\
    outcome g1 = outcome g2.
Proof.
  intros Hr.
  destruct (isserlis_run_spec set_ r h Hr) as [h1 [g1 [E1 [K1 [C1 O1]]]]].
  destruct (isserlis_run_spec set_ r h1 (K1 _ _ Hr)) as [h2 [g2 [E2 [K2 [C2 O2]]]]].
  exists h1, g1, h2, g2. repeat split; try assumption.
  - now apply K1.
  - now apply K2, K1.
  - now rewrite C1, C2.
  - congruence.
Qed.

Lemma isserlis_run_deterministic_witness :
  (<[0 := [1; 1; 2; 2]%Z]> ∅ : gmap loc (list Z)) !! 0 = Some [1; 1; 2; 2]%Z /\
  exists h1 g1 h2 g2,
    isserlis_run (<[0 := [1; 1; 2; 2]%Z]> ∅) 0 = Some (h1, g1) /\
    isserlis_run h1 0 = Some (h2, g2) /\
    (forall l v, (<[0 := [1; 1; 2; 2]%Z]> ∅ : gmap loc (list Z)) !! l = Some v ->
                 h1 !! l = Some v /\ h2 !! l = Some v) /\
    contents h1 g1 = map Some (yields (isserlis [1; 1; 2; 2]%Z)) /\
    Permutation (contents h1 g1) (contents h2 g2) /\
    outcome g1 = outcome g2.
Proof.
  split; [reflexivity|].
  apply (isserlis_run_deterministic (<[0 := [1; 1; 2; 2]%Z]> ∅) 0 [1; 1; 2; 2]%Z).
  reflexivity.
Defined.

(** * Further properties of [isserlis] *)

Lemma range_step2_double (n : nat) :
  range_step2 (2 * n) = map (Nat.mul 2) (seq 0 n).
Proof.
  induction n as [|n IH]; [reflexivity|].
  replace (2 * S n) with (S (S (2 * n))) by lia.
  rewrite range_step2_SS, IH. cbn [seq map]. f_equal.
  rewrite <- seq_shift, !map_map. apply map_ext. intros k. lia.
Qed.

Lemma canon_loop_iff (p : list nat) (a len i : nat) :
  canon_loop p (map (Nat.mul 2) (seq a len)) i = true <->
  (0 < len -> i <= pos (2 * a) p) /\
  (forall k, a <= k < a + len ->
     pos (2 * k) p <= pos (2 * k + 1) p /\
     (k + 1 < a + len -> pos (2 * k) p <= pos (2 * k + 2) p)).
Proof.
  revert a i. induction len as [|len IH]; intros a i.
  - simpl. split; [intros _; split; intros; lia | reflexivity].
  - cbn [seq map canon_loop]. 
    destruct (Nat.ltb_spec (pos (2 * a) p) i) as [H1|H1].
    { split; [discriminate | intros [H _]; lia]. }
    destruct (Nat.ltb_spec (pos (2 * a + 1) p) (pos (2 * a) p)) as [H2|H2].
    { split; [discriminate|]. intros [_ H]. destruct (H a) as [H3 _]; lia. }
    rewrite IH. replace (2 * S a) with (2 * a + 2) by lia. split.
    + intros [Ha Hk]. split; [intros _; exact H1|].
      intros k Hk'. destruct (Nat.eq_dec k a) as [->|Hne].
      * split; [exact H2|]. intros Hlt. apply Ha. lia.
      * destruct (Hk k) as [H3 H4]; [lia|]. split; [exact H3|].
        intros Hlt. apply H4. lia.
    + intros [_ Hk]. split.
      * intros Hlen. destruct (Hk a) as [_ H]; [lia|]. apply H. lia.
      * intros k Hk'. destruct (Hk k) as [H3 H4]; [lia|]. split; [exact H3|].
        intros Hlt. apply H4. lia.
Qed.

(** X1: on a permutation [p] of [range(2n)], [n >= 1], [test] never raises,
    and it returns [True] exactly when every even value stands before its
    successor and before the next even value: within each pair the smaller
    input position comes first, and the pairs are ordered by their first
    position. *)
Theorem test_accepts_canonical (n : nat) (p : list nat) :
  0 < n -> Permutation (seq 0 (2 * n)) p ->
  exists b, test (2 * n) p = Ok b /\
    (b = true <->
     forall k, k < n ->
       pos (2 * k) p < pos (2 * k + 1) p /\
       (k + 1 < n -> pos (2 * k) p < pos (2 * k + 2) p)).
Proof.
  intros Hn Hp. exists (canon (2 * n) p).
  split; [apply test_canon; [assumption | apply even_double | lia]|].
  unfold canon. rewrite range_step2_double, canon_loop_iff.
  assert (Hne : forall v w, v < 2 * n -> w < 2 * n -> v <> w ->
                            pos v p <> pos w p).
  { intros v w Hv Hw Hvw E. apply Hvw.
    apply (pos_inj p); [apply (perm_In_lt _ _ _ Hp).. | exact E]; assumption. }
  split.
  - intros [_ H] k Hk. destruct (H k) as [H1 H2]; [lia|]. split.
    + assert (pos (2 * k) p <> pos (2 * k + 1) p) by (apply Hne; lia). lia.
    + intros Hk1. specialize (H2 ltac:(lia)).
      assert (pos (2 * k) p <> pos (2 * k + 2) p) by (apply Hne; lia). lia.
  - intros H. split; [intros _; simpl; lia|].
    intros k Hk. destruct (H k) as [H1 H2]; [lia|]. split; [lia|].
    intros Hk1. specialize (H2 ltac:(lia)). lia.
Qed.

Lemma test_accepts_canonical_witness :
  0 < 2 /\ Permutation (seq 0 (2 * 2)) [0; 2; 1; 3] /\
  exists b, test (2 * 2) [0; 2; 1; 3] = Ok b /\
    (b = true <->
     forall k, k < 2 ->
       pos (2 * k) [0; 2; 1; 3] < pos (2 * k + 1) [0; 2; 1; 3] /\
       (k + 1 < 2 -> pos (2 * k) [0; 2; 1; 3] < pos (2 * k + 2) [0; 2; 1; 3])).
Proof.
  assert (Hp : Permutation (seq 0 (2 * 2)) [0; 2; 1; 3]).
  { simpl. apply perm_skip. apply perm_swap. }
  split; [exact (Nat.lt_0_succ 1)|]. split; [exact Hp|].
  exact (test_accepts_canonical 2 [0; 2; 1; 3] (Nat.lt_0_succ 1) Hp).
Defined.

Lemma positions_pairing_seq (p : list nat) (a n : nat) :
  positions_of (map (fun j => (pos j p, pos (j + 1) p))
                    (map (Nat.mul 2) (seq a n)))
  = map (fun i => pos i p) (seq (2 * a) (2 * n)).
Proof.
  revert a. induction n as [|n IH]; intros a; [reflexivity|].
  replace (2 * S n) with (S (S (2 * n))) by lia.
  cbn [seq map positions_of flat_map app fst snd].
  fold (positions_of (map (fun j => (pos j p, pos (j + 1) p))
                          (map (Nat.mul 2) (seq (S a) n)))).
  rewrite IH. replace (2 * a + 1) with (S (2 * a)) by lia.
  now replace (2 * S a) with (S (S (2 * a))) by lia.
Qed.

Lemma positions_pairing (p : list nat) (n : nat) :
  positions_of (pairing (2 * n) p) = map (fun i => pos i p) (seq 0 (2 * n)).
Proof.
  unfold pairing. rewrite range_step2_double.
  exact (positions_pairing_seq p 0 n).
Qed.

Lemma accepted_perm (m : nat) (p : list nat) :
  In p (accepted m) -> Permutation (seq 0 m) p /\ passes m p = true.
Proof.
  unfold accepted. rewrite filter_In, permutations_In. tauto.
Qed.

(** X2: the pairs of an accepted permutation use every input position
    exactly once: they are a perfect matching of [range(2n)]. *)
Theorem accepted_pairing_matching (n : nat) (p : list nat) :
  In p (accepted (2 * n)) ->
  Permutation (positions_of (pairing (2 * n) p)) (seq 0 (2 * n)).
Proof.
  intros H. apply accepted_perm in H. destruct H as [Hp _].
  rewrite positions_pairing. now apply inverse_perm.
Qed.

Lemma accepted_pairing_matching_witness :
  In [0; 2; 1; 3] (accepted (2 * 2)) /\
  Permutation (positions_of (pairing (2 * 2) [0; 2; 1; 3])) (seq 0 (2 * 2)).
Proof.
  assert (H : In [0; 2; 1; 3] (accepted (2 * 2)))
    by (simpl; right; left; reflexivity).
  split; [exact H|]. exact (accepted_pairing_matching 2 [0; 2; 1; 3] H).
Defined.

(** *** Every perfect matching is represented *)



Lemma positions_of_map (f : nat -> nat) (P : list (nat * nat)) :
  positions_of (map (fun ab => (f (fst ab), f (snd ab))) P)
  = map f (positions_of P).
Proof.
  induction P as [|[a b] P IH]; [reflexivity|].
  cbn [map positions_of flat_map app fst snd].
  fold (positions_of (map (fun ab => (f (fst ab), f (snd ab))) P)).
  fold (positions_of P). now rewrite IH.
Qed.







(** *** The first partition *)

Lemma canon_identity (n : nat) : canon (2 * n) (seq 0 (2 * n)) = true.
Proof.
  induction n as [|n IH]; [reflexivity|].
  replace (2 * S n) with (S (S (2 * n))) by lia.
  rewrite seq_build, canon_build; [exact IH | reflexivity | apply even_double].
Qed.

Lemma pos_seq (m i : nat) : i < m -> pos i (seq 0 m) = i.
Proof.
  intros H. apply pos_nth_error; [apply seq_NoDup|].
  rewrite nth_error_nth' with (d := 0) by (rewrite length_seq; exact H).
  now rewrite seq_nth.
Qed.

Lemma Forall2_pos_seq {A : Type} (set_ : list A) (m : nat) (js : list nat)
    (el : list A) :
  (forall i, In i js -> i < m) ->
  Forall2 (fun i a => nth_error set_ (pos i (seq 0 m)) = Some a) js el ->
  Forall2 (fun i a => nth_error set_ i = Some a) js el.
Proof.
  intros Hjs H. induction H as [|i a js' el' Hi _ IH]; constructor.
  - rewrite pos_seq in Hi; [exact Hi | apply Hjs; now left].
  - apply IH. intros k Hk. apply Hjs. now right.
Qed.

Lemma rearrange_identity {A : Type} (set_ : list A) :
  rearrange set_ (length set_) (seq 0 (length set_)) = Ok set_.
Proof.
  destruct (rearrange_total set_ (length set_) (seq 0 (length set_)) eq_refl
              (Permutation_refl _)) as [el Hel].
  rewrite Hel. f_equal.
  apply (rearrange_lookup set_ _ _ (Permutation_refl _)) in Hel.
  apply Forall2_pos_seq in Hel; [|intros i Hi; apply in_seq in Hi; lia].
  now apply (Forall2_nth_error_seq set_ set_ el 0).
Qed.

(** X4: on a non-empty input of even length the first partition yielded is
    the input itself, read as the pairs of adjacent elements. *)
Theorem isserlis_first_is_input {A : Type} (set_ : list A) :
  set_ <> [] -> Nat.even (length set_) = true ->
  exists g, isserlis set_ = Yield set_ g.
Proof.
  intros Hne He.
  assert (Hm : 0 < length set_) by (destruct set_; [contradiction | simpl; lia]).
  assert (Hc : canon (length set_) (seq 0 (length set_)) = true).
  { pose proof He as He'. apply Nat.even_spec in He'. destruct He' as [n Hn].
    rewrite Hn. apply canon_identity. }
  unfold isserlis, permutations, range. rewrite length_seq.
  destruct (permutations_n_head (seq 0 (length set_))) as [ps E].
  rewrite length_seq in E. rewrite E. cbn [isserlis_loop].
  rewrite (test_canon _ _ (Permutation_refl _) He Hm), Hc, rearrange_identity.
  eauto.
Qed.

Lemma isserlis_first_is_input_witness :
  [1; 1; 2; 3]%Z <> [] /\ Nat.even (length [1; 1; 2; 3]%Z) = true /\
  exists g, isserlis [1; 1; 2; 3]%Z = Yield [1; 1; 2; 3]%Z g.
Proof.
  assert (Hne : [1; 1; 2; 3]%Z <> []) by discriminate.
  split; [exact Hne|]. split; [reflexivity|].
  exact (isserlis_first_is_input [1; 1; 2; 3]%Z Hne eq_refl).
Defined.

(** *** Relabelling the symbols *)

Lemma getitem_map {A B : Type} (f : A -> B) (l : list A) (k : nat) :
  getitem (map f l) k
  = match getitem l k with Ok a => Ok (f a) | Raise e => Raise e end.
Proof.
  unfold getitem. rewrite nth_error_map. now destruct (nth_error l k).
Qed.

Lemma mapM_map_result {A B C : Type} (f : A -> result B) (f' : A -> result C)
    (h : B -> C) (l : list A) :
  (forall x, f' x = match f x with Ok b => Ok (h b) | Raise e => Raise e end) ->
  mapM f' l = match mapM f l with Ok ys => Ok (map h ys) | Raise e => Raise e end.
Proof.
  intros H. induction l as [|x l IH]; [reflexivity|].
  cbn [mapM]. rewrite H, IH. destruct (f x); [|reflexivity]. cbn [bind].
  now destruct (mapM f l).
Qed.

Lemma rearrange_map {A B : Type} (f : A -> B) (set_ : list A) (n : nat)
    (p : list nat) :
  rearrange (map f set_) n p
  = match rearrange set_ n p with
    | Ok el => Ok (map f el)
    | Raise e => Raise e
    end.
Proof.
  unfold rearrange. apply mapM_map_result. intros i.
  destruct (index p i) as [k|e]; [|reflexivity]. cbn [bind].
  apply getitem_map.
Qed.

Lemma isserlis_loop_map {A B : Type} (f : A -> B) (set_ : list A) (n : nat)
    (ps : list (list nat)) :
  isserlis_loop (map f set_) n ps = gen_map (map f) (isserlis_loop set_ n ps).
Proof.
  induction ps as [|p ps IH]; [reflexivity|]. cbn [isserlis_loop].
  destruct (test n p) as [[|]|e]; [|exact IH|reflexivity].
  rewrite rearrange_map. destruct (rearrange set_ n p); [|reflexivity].
  cbn [gen_map]. now rewrite IH.
Qed.

(** X5: [isserlis] works on positions only: applying a function to every
    symbol of the input applies it to every symbol of every partition, in the
    same order and with the same end, whether or not symbols coincide. *)
Theorem isserlis_map {A B : Type} (f : A -> B) (set_ : list A) :
  isserlis (map f set_) = gen_map (map f) (isserlis set_).
Proof. unfold isserlis. rewrite length_map. apply isserlis_loop_map. Qed.

Lemma mapM_ext {A B : Type} (f f' : A -> result B) (l : list A) :
  (forall x, f x = f' x) -> mapM f l = mapM f' l.
Proof.
  intros H. induction l as [|x l IH]; [reflexivity|].
  cbn [mapM]. now rewrite H, IH.
Qed.

Lemma lags_isometry (f : Z -> Z) (n : nat) (el : list Z) :
  (forall a b, Z.abs (f a - f b) = Z.abs (a - b)) ->
  lags n (map f el) = lags n el.
Proof.
  intros Hf. unfold lags. apply mapM_ext. intros j. rewrite !getitem_map.
  destruct (getitem el (j + 1)) as [a|e]; [|reflexivity].
  destruct (getitem el j) as [b|e]; [|reflexivity].
  cbn [bind]. now rewrite Hf.
Qed.

Lemma stationary_loop_isometry (f : Z -> Z) (n : nat) (g : gen (list Z)) :
  (forall a b, Z.abs (f a - f b) = Z.abs (a - b)) ->
  isserlis_stationary_loop n (gen_map (map f) g) = isserlis_stationary_loop n g.
Proof.
  intros Hf. induction g as [|el g IH|e]; try reflexivity.
  cbn [gen_map isserlis_stationary_loop]. unfold shape_of.
  rewrite (lags_isometry f n el Hf). fold (shape_of n el).
  destruct (shape_of n el); [|reflexivity]. now rewrite IH.
Qed.

(** X6: [isserlis_stationary] sees only the lags: relabelling the integers
    by any map that keeps absolute differences (a shift by a constant, a
    reflection) changes nothing in what it yields or how it ends. *)
Theorem isserlis_stationary_isometry (f : Z -> Z) (set_ : list Z) :
  (forall a b, Z.abs (f a - f b) = Z.abs (a - b)) ->
  isserlis_stationary (map f set_) = isserlis_stationary set_.
Proof.
  intros Hf. unfold isserlis_stationary.
  fold (isserlis (map f set_)). fold (isserlis set_).
  rewrite length_map.
  assert (E : isserlis (map f set_) = gen_map (map f) (isserlis set_)).
  { unfold isserlis. rewrite length_map. apply isserlis_loop_map. }
  rewrite E. now apply stationary_loop_isometry.
Qed.

Lemma isserlis_stationary_isometry_witness :
  (forall a b, Z.abs ((5 - a) - (5 - b)) = Z.abs (a - b))%Z /\
  isserlis_stationary (map (fun a => 5 - a)%Z [0; 0; 1; 3]%Z)
  = isserlis_stationary [0; 0; 1; 3]%Z.
Proof.
  assert (Hf : (forall a b, Z.abs ((5 - a) - (5 - b)) = Z.abs (a - b))%Z).
  { intros a b. replace (5 - a - (5 - b))%Z with (- (a - b))%Z by ring.
    apply Z.abs_opp. }
  split; [exact Hf|].
  exact (isserlis_stationary_isometry (fun a => 5 - a)%Z [0; 0; 1; 3]%Z Hf).
Defined.

(** * Further properties of [isserlis_stationary_analytical] *)

Lemma Forall2_nth_error_rel {A B : Type} (R : A -> B -> Prop) (l : list A)
    (r : list B) (i : nat) (x : A) (y : B) :
  Forall2 R l r -> nth_error l i = Some x -> nth_error r i = Some y -> R x y.
Proof.
  intros H. revert i. induction H as [|x' y' l r Hxy _ IH]; intros [|i];
    simpl; try discriminate.
  - now intros [= <-] [= <-].
  - apply IH.
Qed.

Lemma dict_get_correspondances (set_elements : list string) (x : string) :
  NoDup set_elements -> In x set_elements ->
  exists k, nth_error set_elements k = Some x /\
            dict_get (correspondances_from ∅ (enumerate set_elements)) x
            = Ok (2 ^ Z.of_nat k - 1)%Z.
Proof.
  intros Hnd Hx. apply In_nth_error in Hx. destruct Hx as [k Hk]. exists k.
  split; [exact Hk|]. apply dict_get_Ok. unfold enumerate.
  now rewrite (correspondances_lookup set_elements 0 k ∅ x Hnd Hk).
Qed.

Lemma analytical_spec (set_elements set_ : list string) :
  NoDup set_elements ->
  (forall x, In x set_ -> In x set_elements) ->
  exists nums,
    isserlis_stationary_analytical set_elements set_
    = Ok (nums, isserlis_stationary nums) /\
    Forall2 (fun x v => exists k, nth_error set_elements k = Some x /\
                                  v = (2 ^ Z.of_nat k - 1)%Z) set_ nums.
Proof.
  intros Hnd Hin. unfold isserlis_stationary_analytical.
  destruct (mapM_total (dict_get (correspondances_from ∅ (enumerate set_elements)))
              set_) as [nums Hnums].
  { intros x Hx. destruct (dict_get_correspondances set_elements x Hnd (Hin x Hx))
      as [k [_ Hk]]. eauto. }
  rewrite Hnums. cbn [bind]. exists nums. split; [reflexivity|].
  apply mapM_Forall2 in Hnums.
  eapply Forall2_impl; [|exact Hnums]. intros x v Hv.
  apply dict_get_Ok in Hv. now apply correspondances_inv.
Qed.

(** X7: when the enumeration of the set lists every token of the input once,
    [isserlis_stationary_analytical] raises no KeyError; it returns one
    number per token occurrence, the number [2**k - 1] of the token's rank
    [k], so that two occurrences get the same number exactly when they are
    the same token; and its second component is [isserlis_stationary] of
    those numbers. *)
Theorem analytical_labels (set_elements set_ : list string) :
  NoDup set_elements ->
  (forall x, In x set_ -> In x set_elements) ->
  exists nums,
    isserlis_stationary_analytical set_elements set_
    = Ok (nums, isserlis_stationary nums) /\
    Forall2 (fun x v => exists k, nth_error set_elements k = Some x /\
                                  v = (2 ^ Z.of_nat k - 1)%Z) set_ nums /\
    (forall i j x y vi vj,
        nth_error set_ i = Some x -> nth_error set_ j = Some y ->
        nth_error nums i = Some vi -> nth_error nums j = Some vj ->
        (vi = vj <-> x = y)).
Proof.
  intros Hnd Hin.
  destruct (analytical_spec set_elements set_ Hnd Hin) as [nums [E HF]].
  exists nums. split; [exact E|]. split; [exact HF|].
  intros i j x y vi vj Hi Hj Hvi Hvj.
  destruct (Forall2_nth_error_rel _ _ _ _ _ _ HF Hi Hvi) as [k [Hk ->]].
  destruct (Forall2_nth_error_rel _ _ _ _ _ _ HF Hj Hvj) as [l [Hl ->]].
  split.
  - intros E'. assert (k = l) by (apply pw_inj; unfold pw; lia). congruence.
  - intros <-. rewrite NoDup_nth_error in Hnd.
    assert (k = l); [|now subst].
    apply Hnd; [|congruence]. apply nth_error_Some. congruence.
Qed.

Lemma analytical_labels_witness :
  NoDup ["b"; "a"]%string /\
  (forall x, In x ["a"; "b"; "a"; "b"]%string -> In x ["b"; "a"]%string) /\
  exists nums,
    isserlis_stationary_analytical ["b"; "a"]%string ["a"; "b"; "a"; "b"]%string
    = Ok (nums, isserlis_stationary nums).
Proof.
  assert (Hnd : NoDup ["b"; "a"]%string)
    by (repeat constructor; simpl; intuition discriminate).
  assert (Hin : forall x, In x ["a"; "b"; "a"; "b"]%string ->
                          In x ["b"; "a"]%string)
    by (intros x; simpl; tauto).
  split; [exact Hnd|]. split; [exact Hin|].
  destruct (analytical_labels ["b"; "a"]%string ["a"; "b"; "a"; "b"]%string
              Hnd Hin) as [nums [H _]].
  exists nums. exact H.
Defined.

(** * [counts] *)

Section Counts.
Context {K : Type} {HK : EqDecision K}.
Implicit Types (d : list (K * nat)) (l : list K) (j k : K).

Lemma pydict_get_set_eq {V : Type} (d : list (K * V)) k (v : V) :
  pydict_get (pydict_set d k v) k = Ok v.
Proof.
  induction d as [|[k' v'] d IH]; simpl.
  - now rewrite decide_True.
  - destruct (decide (k' = k)) as [E|E]; simpl.
    + now rewrite decide_True.
    + now rewrite decide_False.
Qed.

Lemma pydict_get_set_ne {V : Type} (d : list (K * V)) k j (v : V) :
  k <> j -> pydict_get (pydict_set d k v) j = pydict_get d j.
Proof.
  intros Hne. induction d as [|[k' v'] d IH]; simpl.
  - now rewrite decide_False.
  - destruct (decide (k' = k)) as [->|E]; simpl.
    + now rewrite !decide_False.
    + now rewrite IH.
Qed.

Lemma pydict_set_keys {V : Type} (d : list (K * V)) k (v : V) :
  map fst (pydict_set d k v)
  = if in_dec HK k (map fst d) then map fst d else map fst d ++ [k].
Proof.
  induction d as [|[k' v'] d IH]; simpl; [reflexivity|].
  destruct (decide (k' = k)) as [->|E]; simpl.
  - destruct (HK k k); [|contradiction].
    reflexivity.
  - rewrite IH. destruct (HK k' k); [contradiction|].
    now destruct (in_dec HK k (map fst d)).
Qed.

Lemma count_eq_cons l (x j : K) :
  count_eq (x :: l) j = (if decide (x = j) then 1 else 0) + count_eq l j.
Proof.
  unfold count_eq. simpl. destruct (decide (x = j)).
  - now rewrite bool_decide_eq_true_2.
  - now rewrite bool_decide_eq_false_2.
Qed.

Lemma count_eq_pos l j : In j l <-> 0 < count_eq l j.
Proof.
  induction l as [|x l IH]; [simpl; unfold count_eq; simpl; lia|].
  rewrite count_eq_cons. simpl. destruct (decide (x = j)); [intuition lia|].
  rewrite IH. intuition lia.
Qed.

(** The loop of the comprehension, started from any dictionary. *)
Lemma counts_fold_get (c : K -> nat) l d j :
  pydict_get (fold_left (fun d j => pydict_set d j (c j)) l d) j
  = if in_dec HK j l then Ok (c j) else pydict_get d j.
Proof.
  revert d. induction l as [|x l IH]; intros d; [reflexivity|].
  cbn [fold_left]. rewrite IH.
  destruct (in_dec HK j l) as [Hl|Hl];
    destruct (in_dec HK j (x :: l)) as [Hxl|Hxl]; simpl in Hxl;
    try reflexivity; try tauto.
  - destruct (decide (x = j)) as [->|Hne]; [apply pydict_get_set_eq | tauto].
  - apply pydict_get_set_ne. tauto.
Qed.

Lemma counts_fold_keys (c : K -> nat) l d :
  NoDup (map fst d) ->
  NoDup (map fst (fold_left (fun d j => pydict_set d j (c j)) l d)) /\
  forall j, In j (map fst (fold_left (fun d j => pydict_set d j (c j)) l d))
            <-> In j (map fst d) \/ In j l.
Proof.
  revert d. induction l as [|x l IH]; intros d Hd; [simpl; tauto|].
  cbn [fold_left].
  assert (Hd' : NoDup (map fst (pydict_set d x (c x))) /\
                forall j, In j (map fst (pydict_set d x (c x)))
                          <-> In j (map fst d) \/ x = j).
  { rewrite pydict_set_keys. destruct (in_dec HK x (map fst d)).
    - split; [assumption|]. intros j. split; [tauto|]. intros [?|<-]; assumption.
    - split.
      + apply NoDup_app; [assumption | repeat constructor; intros [] |].
        intros j Hj [<-|[]]. contradiction.
      + intros j. rewrite in_app_iff. simpl. tauto. }
  destruct Hd' as [Hnd Hk]. destruct (IH _ Hnd) as [IH1 IH2].
  split; [assumption|]. intros j. rewrite IH2, Hk. simpl. tauto.
Qed.

Lemma counts_fold_values (c : K -> nat) l d :
  (forall k v, In (k, v) d -> v = c k) ->
  forall k v, In (k, v) (fold_left (fun d j => pydict_set d j (c j)) l d) ->
              v = c k.
Proof.
  revert d. induction l as [|x l IH]; intros d Hd; [exact Hd|].
  cbn [fold_left]. apply IH. clear IH.
  induction d as [|[k' v'] d IHd]; simpl.
  - intros k v [[= <- <-]|[]]. reflexivity.
  - destruct (decide (k' = x)) as [->|Hne]; intros k v [[= <- <-]|Hin].
    + reflexivity.
    + apply Hd. now right.
    + apply Hd. now left.
    + apply IHd; [|assumption]. intros k0 v0 H0. apply Hd. now right.
Qed.

Lemma indicator_sum_NoDup (x : K) (ks : list K) :
  NoDup ks -> In x ks ->
  list_sum (map (fun k => if decide (x = k) then 1 else 0) ks) = 1.
Proof.
  induction 1 as [|k ks Hk Hnd IH]; [intros []|].
  assert (Hz : forall ks', ~ In x ks' ->
            list_sum (map (fun k => if decide (x = k) then 1 else 0) ks') = 0).
  { induction ks' as [|k' ks' IH']; intros Hn; [reflexivity|]. simpl.
    rewrite decide_False, IH'; simpl in Hn; intuition. }
  intros [->|Hin]; simpl.
  - rewrite decide_True, Hz by auto. reflexivity.
  - rewrite decide_False, IH by (auto; intros ->; contradiction). reflexivity.
Qed.

Lemma count_eq_sum l (ks : list K) :
  NoDup ks -> (forall x, In x l -> In x ks) ->
  list_sum (map (count_eq l) ks) = length l.
Proof.
  intros Hnd. induction l as [|x l IH]; intros Hin.
  - clear. induction ks as [|k ks IHk]; [reflexivity | exact IHk].
  - rewrite (map_ext _ _ (count_eq_cons l x)), list_sum_map_add.
    rewrite IH by (intros y Hy; apply Hin; now right).
    rewrite indicator_sum_NoDup; [reflexivity | assumption |].
    apply Hin. now left.
Qed.

Lemma counts_tuple_spec l :
  NoDup (map fst (counts_tuple l)) /\
  (forall j, In j (map fst (counts_tuple l)) <-> In j l) /\
  (forall j, pydict_get (counts_tuple l) j
             = if in_dec HK j l then Ok (count_eq l j)
               else Raise KeyError) /\
  list_sum (map snd (counts_tuple l)) = length l.
Proof.
  unfold counts_tuple.
  destruct (counts_fold_keys (count_eq l) l []) as [Hnd Hk]; [constructor|].
  split; [exact Hnd|]. split; [intros j; rewrite Hk; simpl; tauto|].
  split; [intros j; apply counts_fold_get|].
  pose proof (counts_fold_values (count_eq l) l [] ltac:(intros k v [])) as Hv.
  assert (E : map snd (fold_left (fun d j => pydict_set d j (count_eq l j)) l [])
              = map (count_eq l)
                  (map fst (fold_left (fun d j => pydict_set d j (count_eq l j)) l []))).
  { rewrite map_map. apply map_ext_in. intros [k v] Hkv. simpl.
    now apply Hv. }
  rewrite E. apply count_eq_sum; [exact Hnd|].
  intros x Hx. apply Hk. now right.
Qed.
End Counts.

Lemma tuple_of_spec {A : Type} (g : gen A) :
  tuple_of g = match outcome g with
               | None => Ok (yields g)
               | Some e => Raise e
               end.
Proof.
  induction g as [|a g IH|e]; try reflexivity.
  cbn [tuple_of yields outcome]. rewrite IH. now destruct (outcome g).
Qed.

(** The loop of [counts]: it goes through when every element can be hashed
    and stops with TypeError otherwise. *)
Lemma counts_loop_hashable {K : Type} `{EqDecision K} (hashable : K -> bool)
    (c : K -> nat) (l : list K) (d : list (K * nat)) :
  (forall j, In j l -> hashable j = true) ->
  foldM (fun d j => if hashable j then Ok (pydict_set d j (c j))
                    else Raise TypeError) l d
  = Ok (fold_left (fun d j => pydict_set d j (c j)) l d).
Proof.
  revert d. induction l as [|x l IH]; intros d Hh; [reflexivity|].
  cbn [foldM fold_left]. rewrite (Hh x) by now left. cbn [bind].
  apply IH. intros j Hj. apply Hh. now right.
Qed.

Lemma counts_loop_unhashable {K : Type} `{EqDecision K} (hashable : K -> bool)
    (c : K -> nat) (l : list K) (d : list (K * nat)) :
  (exists j, In j l /\ hashable j = false) ->
  foldM (fun d j => if hashable j then Ok (pydict_set d j (c j))
                    else Raise TypeError) l d
  = Raise TypeError.
Proof.
  revert d. induction l as [|x l IH]; intros d [j [Hj Hf]]; [destruct Hj|].
  cbn [foldM]. destruct (hashable x) eqn:Ex; [|reflexivity]. cbn [bind].
  apply IH. exists j. split; [|exact Hf].
  destruct Hj as [<-|Hj]; [congruence | exact Hj].
Qed.

Lemma counts_hashable {K : Type} `{EqDecision K} (hashable : K -> bool)
    (g : gen K) :
  outcome g = None -> (forall j, In j (yields g) -> hashable j = true) ->
  counts hashable g = Ok (counts_tuple (yields g)).
Proof.
  intros Ho Hh. unfold counts. rewrite tuple_of_spec, Ho. cbn [bind].
  now apply (counts_loop_hashable hashable (count_eq (yields g))).
Qed.

Lemma counts_hashable_inv {K : Type} `{EqDecision K} (hashable : K -> bool)
    (g : gen K) (d : list (K * nat)) :
  (forall j, hashable j = true) -> counts hashable g = Ok d ->
  outcome g = None /\ d = counts_tuple (yields g).
Proof.
  intros Hh Hc. destruct (outcome g) as [e|] eqn:Ho.
  - unfold counts in Hc. rewrite tuple_of_spec, Ho in Hc. discriminate.
  - rewrite (counts_hashable hashable g Ho) in Hc by (intros j _; apply Hh).
    injection Hc as <-. now split.
Qed.

(** X8: [counts] on an iterable that is exhausted without an exception.
    When every element can be hashed, it returns a dictionary whose keys
    are the distinct elements without repetition, where looking up an
    element gives the number of its occurrences (at least one), looking up
    anything else raises KeyError, and the values add up to the number of
    elements. When some element cannot be hashed, it raises TypeError and
    returns no dictionary. *)
Theorem counts_lookup {K : Type} `{EqDecision K} (hashable : K -> bool)
    (g : gen K) :
  outcome g = None ->
  ((forall j, In j (yields g) -> hashable j = true) ->
   exists d,
     counts hashable g = Ok d /\
     NoDup (map fst d) /\
     (forall j, In j (yields g) ->
                pydict_get d j = Ok (count_eq (yields g) j) /\
                0 < count_eq (yields g) j) /\
     (forall j, ~ In j (yields g) -> pydict_get d j = Raise KeyError) /\
     list_sum (map snd d) = length (yields g)) /\
  ((exists j, In j (yields g) /\ hashable j = false) ->
   counts hashable g = Raise TypeError).
Proof.
  intros Ho. split.
  - intros Hh. exists (counts_tuple (yields g)).
    destruct (counts_tuple_spec (yields g)) as [Hnd [_ [Hget Hsum]]].
    split; [now apply counts_hashable|]. split; [exact Hnd|].
    split; [|split; [|exact Hsum]].
    + intros j Hj. rewrite Hget. split; [|now apply count_eq_pos].
      now destruct (in_dec _ j (yields g)).
    + intros j Hj. rewrite Hget. now destruct (in_dec _ j (yields g)).
  - intros Hu. unfold counts. rewrite tuple_of_spec, Ho. cbn [bind].
    now apply (counts_loop_unhashable hashable (count_eq (yields g))).
Qed.

Lemma counts_lookup_witness :
  outcome (isserlis_stationary [0; 0; 1; 1]%Z) = None /\
  (exists d,
     counts hashable_tuple (isserlis_stationary [0; 0; 1; 1]%Z) = Ok d /\
     NoDup (map fst d) /\
     (forall j, In j (yields (isserlis_stationary [0; 0; 1; 1]%Z)) ->
                pydict_get d j
                = Ok (count_eq (yields (isserlis_stationary [0; 0; 1; 1]%Z)) j) /\
                0 < count_eq (yields (isserlis_stationary [0; 0; 1; 1]%Z)) j) /\
     (forall j, ~ In j (yields (isserlis_stationary [0; 0; 1; 1]%Z)) ->
                pydict_get d j = Raise KeyError) /\
     list_sum (map snd d)
     = length (yields (isserlis_stationary [0; 0; 1; 1]%Z))) /\
  outcome (isserlis [1; 1; 2; 2]%Z) = None /\
  counts hashable_list (isserlis [1; 1; 2; 2]%Z) = Raise TypeError.
Proof.
  split; [reflexivity|]. split.
  - exact (proj1 (counts_lookup hashable_tuple
                    (isserlis_stationary [0; 0; 1; 1]%Z) eq_refl)
                 (fun _ _ => eq_refl)).
  - split; [reflexivity|].
    exact (proj2 (counts_lookup hashable_list (isserlis [1; 1; 2; 2]%Z) eq_refl)
                 (ex_intro _ [1; 1; 2; 2]%Z (conj (or_introl eq_refl) eq_refl))).
Defined.

Lemma stationary_yield_sum (set_ : list Z) (n : nat) (s : list nat) :
  length set_ = 2 * n -> In s (yields (isserlis_stationary set_)) ->
  list_sum s = n.
Proof.
  intros Hlen Hs. apply stationary_loop_inv in Hs.
  destruct Hs as [el [_ Hs]]. rewrite Hlen in Hs. now apply shape_of_sum in Hs.
Qed.

(** X9: for an integer input of length [2n], [n >= 1], the dictionary
    [counts(isserlis_stationary(set_))] is built without an exception; its
    keys are shapes whose entries sum to [n], every multiplicity is positive,
    and the multiplicities add up to [(2n-1)!!], the number of pairings. *)
Theorem counts_stationary_total (set_ : list Z) (n : nat) :
  0 < n -> length set_ = 2 * n ->
  exists d,
    counts hashable_tuple (isserlis_stationary set_) = Ok d /\
    (forall s m, In (s, m) d -> list_sum s = n /\ 0 < m) /\
    list_sum (map snd d) = dfact (2 * n - 1).
Proof.
  intros Hn Hlen. pose proof (even_double n) as He. rewrite <- Hlen in He.
  destruct (isserlis_stationary_spec set_ He) as [Ho Hy]; [lia|].
  exists (counts_tuple (yields (isserlis_stationary set_))).
  destruct (counts_tuple_spec (yields (isserlis_stationary set_)))
    as [_ [Hk [_ Hsum]]].
  split; [now apply counts_hashable|]. split.
  - intros s m Hsm.
    assert (Hs : In s (yields (isserlis_stationary set_))).
    { apply Hk. apply in_map_iff. now exists (s, m). }
    split; [now apply (stationary_yield_sum set_)|].
    unfold counts_tuple in Hsm.
    apply (counts_fold_values _ _ [] ltac:(intros k v [])) in Hsm. subst m.
    now apply count_eq_pos.
  - rewrite Hsum, <- (Forall2_length Hy). now apply isserlis_yields_count.
Qed.

Lemma counts_stationary_total_witness :
  0 < 2 /\ length [0; 0; 1; 1]%Z = 2 * 2 /\
  exists d,
    counts hashable_tuple (isserlis_stationary [0; 0; 1; 1]%Z) = Ok d /\
    (forall s m, In (s, m) d -> list_sum s = 2 /\ 0 < m) /\
    list_sum (map snd d) = dfact (2 * 2 - 1).
Proof.
  split; [exact (Nat.lt_0_succ 1)|]. split; [reflexivity|].
  exact (counts_stationary_total [0; 0; 1; 1]%Z 2 (Nat.lt_0_succ 1) eq_refl).
Defined.

(** X10: [counts] consumes the generator before it builds anything, so on
    an input of odd length, or on the empty input, the ValueError of
    [isserlis] comes out of [counts(isserlis_stationary(set_))] and no
    dictionary is returned. *)
Theorem counts_stationary_raises (set_ : list Z) :
  Nat.odd (length set_) = true \/ set_ = [] ->
  counts hashable_tuple (isserlis_stationary set_) = Raise ValueError.
Proof.
  intros [Ho| ->]; [|reflexivity].
  unfold counts, isserlis_stationary. fold (isserlis set_).
  now rewrite (isserlis_odd set_ Ho).
Qed.

Lemma counts_stationary_raises_witness :
  (Nat.odd (length [0; 1; 3]%Z) = true \/ [0; 1; 3]%Z = []) /\
  counts hashable_tuple (isserlis_stationary [0; 1; 3]%Z) = Raise ValueError.
Proof.
  split; [left; reflexivity|].
  exact (counts_stationary_raises [0; 1; 3]%Z (or_introl eq_refl)).
Defined.

(** * [beautiful_print] *)

(** ** The table of differences *)

Lemma style_lengths (option : string) :
  length (s (style_of option)) = 6 /\ length (s2 (style_of option)) = 6.
Proof. unfold style_of. destruct (String.eqb option ".tex"); split; reflexivity. Qed.

Lemma getitem_total {A : Type} (l : list A) (k : nat) :
  k < length l -> exists a, getitem l k = Ok a.
Proof.
  intros H. unfold getitem. destruct (nth_error l k) as [a|] eqn:E; [eauto|].
  apply nth_error_None in E. lia.
Qed.

Lemma getitem_out {A : Type} (l : list A) (k : nat) :
  length l <= k -> getitem l k = Raise IndexError.
Proof.
  intros H. unfold getitem. apply nth_error_None in H. now rewrite H.
Qed.

(** The inner loop from position [l0] of the slice on. *)
Lemma differences_inner_spec (st : style) (k : nat) (i : Z) (rest : list Z)
    (l0 : nat) (d : gmap Z string) :
  k < length (s2 st) ->
  (rest <> [] -> k + l0 + length rest < length (s st)) ->
  exists d',
    foldM (fun d lj =>
             let* a := getitem (s st) (k + fst lj + 1) in
             let* b := getitem (s2 st) k in
             Ok (<[Z.abs (snd lj - i) := cov st +:+ "(" +:+ a +:+ b +:+ ")"]> d))
          (combine (seq l0 (length rest)) rest) d = Ok d' /\
    (forall z, is_Some (d !! z) -> is_Some (d' !! z)) /\
    (forall j, In j rest -> is_Some (d' !! Z.abs (j - i))).
Proof.
  intros Hk.
  set (f := fun (d : gmap Z string) (lj : nat * Z) =>
              let* a := getitem (s st) (k + fst lj + 1) in
              let* b := getitem (s2 st) k in
              Ok (<[Z.abs (snd lj - i) := cov st +:+ "(" +:+ a +:+ b +:+ ")"]> d)).
  revert l0 d. induction rest as [|j rest IH]; intros l0 d Hl.
  - exists d. simpl. repeat split; [auto | intros j []].
  - cbn [length seq combine foldM].
    specialize (Hl ltac:(discriminate)). simpl in Hl.
    destruct (getitem_total (s st) (k + l0 + 1)) as [a Ha]; [lia|].
    destruct (getitem_total (s2 st) k Hk) as [b Hb].
    assert (Hf : f d (l0, j)
                 = Ok (<[Z.abs (j - i) := cov st +:+ "(" +:+ a +:+ b +:+ ")"]> d)).
    { unfold f. cbn [fst snd]. now rewrite Ha, Hb. }
    rewrite Hf. cbn [bind].
    destruct (IH (S l0) (<[Z.abs (j - i) := cov st +:+ "(" +:+ a +:+ b +:+ ")"]> d))
      as [d' [E [Hmono Hkeys]]]; [intros _; lia|].
    exists d'. split; [exact E|]. split.
    + intros z Hz. apply Hmono.
      destruct (decide (Z.abs (j - i) = z)) as [<-|Hne].
      * rewrite lookup_insert_eq. eauto.
      * now rewrite lookup_insert_ne.
    + intros j' [<-|Hj'].
      * apply Hmono. rewrite lookup_insert_eq. eauto.
      * now apply Hkeys.
Qed.

(** The outer loop from position [k0] on, over the suffix [rest] of [set_]. *)
Lemma differences_outer_spec (st : style) (set_ rest : list Z) (k0 : nat)
    (d : gmap Z string) :
  length set_ <= length (s st) -> length set_ <= length (s2 st) ->
  rest = skipn k0 set_ ->
  exists d',
    foldM (fun d ki =>
             differences_inner st (fst ki) (snd ki) (skipn (fst ki + 1) set_) d)
          (combine (seq k0 (length rest)) rest) d = Ok d' /\
    (forall z, is_Some (d !! z) -> is_Some (d' !! z)) /\
    (forall k k' x y, k0 <= k -> k < k' ->
       nth_error set_ k = Some x -> nth_error set_ k' = Some y ->
       is_Some (d' !! Z.abs (y - x))).
Proof.
  intros Hs Hs2.
  set (f := fun (d : gmap Z string) (ki : nat * Z) =>
              differences_inner st (fst ki) (snd ki) (skipn (fst ki + 1) set_) d).
  revert k0 d. induction rest as [|i rest IH]; intros k0 d Hrest.
  - exists d. simpl. split; [reflexivity|]. split; [auto|].
    intros k k' x y Hk0 Hkk Hx Hy. exfalso.
    assert (E : length (skipn k0 set_) = 0) by now rewrite <- Hrest.
    rewrite length_skipn in E.
    assert (k < length set_) by (apply nth_error_Some; congruence). lia.
  - cbn [length seq combine foldM].
    assert (Hlen : length set_ = k0 + S (length rest)).
    { assert (E : length (skipn k0 set_) = S (length rest)) by now rewrite <- Hrest.
      rewrite length_skipn in E. lia. }
    assert (Hi : nth_error set_ k0 = Some i).
    { rewrite <- (Nat.add_0_r k0), <- nth_error_skipn, <- Hrest. reflexivity. }
    assert (Hrest' : rest = skipn (S k0) set_).
    { replace (S k0) with (1 + k0) by lia. rewrite <- skipn_skipn, <- Hrest.
      reflexivity. }
    destruct (differences_inner_spec st k0 i rest 0 d) as [d1 [E1 [M1 K1]]];
      [lia | intros _; lia |].
    assert (Hf : f d (k0, i) = Ok d1).
    { unfold f, differences_inner, enumerate. cbn [fst snd].
      replace (k0 + 1) with (S k0) by lia. rewrite <- Hrest'. exact E1. }
    rewrite Hf. cbn [bind].
    destruct (IH (S k0) d1 Hrest') as [d' [E [Hmono Hkeys]]].
    exists d'. split; [exact E|]. split; [intros z Hz; apply Hmono, M1, Hz|].
    intros k k' x y Hk0 Hkk Hx Hy.
    destruct (Nat.eq_dec k k0) as [->|Hne].
    + rewrite Hi in Hx. injection Hx as <-. apply Hmono, K1.
      rewrite Hrest'. apply nth_error_In with (n := k' - S k0).
      rewrite nth_error_skipn. now replace (S k0 + (k' - S k0)) with k' by lia.
    + apply (Hkeys k k'); try assumption. lia.
Qed.

Lemma differences_of_spec (st : style) (set_ : list Z) :
  length set_ <= length (s st) -> length set_ <= length (s2 st) ->
  exists d,
    differences_of st set_ = Ok d /\
    forall a b, In a set_ -> In b set_ -> is_Some (d !! Z.abs (a - b)).
Proof.
  intros Hs Hs2. unfold differences_of, enumerate.
  destruct (differences_outer_spec st set_ set_ 0 ∅ Hs Hs2 eq_refl)
    as [d [E [_ Hkeys]]].
  rewrite E. cbn [bind]. eexists. split; [reflexivity|].
  intros a b Ha Hb.
  destruct (decide (Z.abs (a - b) = 0%Z)) as [->|Hne];
    [rewrite lookup_insert_eq; eauto|].
  rewrite lookup_insert_ne by congruence.
  apply In_nth_error in Ha, Hb. destruct Ha as [k Hk], Hb as [k' Hk'].
  destruct (Nat.lt_trichotomy k k') as [Hlt|[->|Hlt]].
  - replace (Z.abs (a - b)) with (Z.abs (b - a)) by lia.
    apply (Hkeys k k'); auto; lia.
  - exfalso. apply Hne. rewrite Hk in Hk'. injection Hk' as ->. lia.
  - apply (Hkeys k' k); auto; lia.
Qed.

Lemma differences_inner_raises (st : style) (k : nat) (i : Z) (rest : list Z)
    (l0 : nat) (d : gmap Z string) :
  k < length (s2 st) ->
  k + l0 < length (s st) <= k + l0 + length rest ->
  foldM (fun d lj =>
           let* a := getitem (s st) (k + fst lj + 1) in
           let* b := getitem (s2 st) k in
           Ok (<[Z.abs (snd lj - i) := cov st +:+ "(" +:+ a +:+ b +:+ ")"]> d))
        (combine (seq l0 (length rest)) rest) d = Raise IndexError.
Proof.
  intros Hk.
  set (f := fun (d : gmap Z string) (lj : nat * Z) =>
              let* a := getitem (s st) (k + fst lj + 1) in
              let* b := getitem (s2 st) k in
              Ok (<[Z.abs (snd lj - i) := cov st +:+ "(" +:+ a +:+ b +:+ ")"]> d)).
  revert l0 d. induction rest as [|j rest IH]; intros l0 d Hl; [simpl in Hl; lia|].
  cbn [length seq combine foldM]. simpl in Hl.
  destruct (Nat.eq_dec (k + l0 + 1) (length (s st))) as [E|Hne].
  - assert (Hf : f d (l0, j) = Raise IndexError).
    { unfold f. cbn [fst snd]. rewrite getitem_out by lia. reflexivity. }
    now rewrite Hf.
  - destruct (getitem_total (s st) (k + l0 + 1)) as [a Ha]; [lia|].
    destruct (getitem_total (s2 st) k Hk) as [b Hb].
    assert (Hf : f d (l0, j)
                 = Ok (<[Z.abs (j - i) := cov st +:+ "(" +:+ a +:+ b +:+ ")"]> d)).
    { unfold f. cbn [fst snd]. now rewrite Ha, Hb. }
    rewrite Hf. cbn [bind]. apply IH. lia.
Qed.

Lemma differences_of_raises (st : style) (set_ : list Z) :
  0 < length (s st) -> 0 < length (s2 st) -> length (s st) < length set_ ->
  differences_of st set_ = Raise IndexError.
Proof.
  intros Hs Hs2 Hlen. destruct set_ as [|i rest]; [simpl in Hlen; lia|].
  unfold differences_of, enumerate. cbn [length seq combine foldM fst snd].
  unfold differences_inner at 1, enumerate. cbn [Nat.add skipn].
  rewrite (differences_inner_raises st 0 i rest 0 ∅ Hs2);
    [reflexivity | simpl in Hlen; lia].
Qed.

(** X11: the tables of labels have six entries, so with seven or more
    distinct values in [set_] the function raises IndexError while it builds
    the table of differences, before any line is printed, whatever [dic] and
    [option] are. *)
Theorem beautiful_print_too_many (set_elements : list Z)
    (dic : list (list nat * nat)) (option : string) :
  7 <= length set_elements ->
  beautiful_print set_elements dic option = Throw IndexError.
Proof.
  intros Hlen. unfold beautiful_print.
  destruct (style_lengths option) as [Hs Hs2].
  rewrite differences_of_raises; [reflexivity | lia | lia | lia].
Qed.

Lemma beautiful_print_too_many_witness :
  7 <= length [0; 1; 3; 7; 15; 31; 63]%Z /\
  beautiful_print [0; 1; 3; 7; 15; 31; 63]%Z [([4], 1)] "Screen"
  = Throw IndexError.
Proof.
  split; [exact (le_n 7)|].
  exact (beautiful_print_too_many [0; 1; 3; 7; 15; 31; 63]%Z [([4], 1)]
           "Screen" (le_n 7)).
Defined.

(** ** Printing the terms *)

Lemma pydict_get_total {K V : Type} `{EqDecision K} (d : list (K * V)) (k : K) :
  In k (map fst d) -> exists v, pydict_get d k = Ok v.
Proof.
  induction d as [|[k' v'] d IH]; simpl; [tauto|].
  intros [->|Hin].
  - rewrite decide_True by reflexivity. eauto.
  - destruct (decide (k' = k)); eauto.
Qed.

Lemma term_loop_total (differences : gmap Z string) (k : list nat) (a : nat)
    (txt : string) :
  (forall i l, nth_error k i = Some l -> l <> 0 ->
               is_Some (differences !! Z.of_nat (a + i))) ->
  exists txt',
    foldM (fun txt il =>
             if snd il =? 0 then Ok txt
             else if snd il =? 1 then
               let* d := differences_get differences (fst il) in
               Ok (txt +:+ d)
             else
               let* d := differences_get differences (fst il) in
               Ok (txt +:+ (d +:+ "^" +:+ str (snd il))))
          (combine (seq a (length k)) k) txt = Ok txt'.
Proof.
  revert a txt. induction k as [|l k IH]; intros a txt Hk; [simpl; eauto|].
  cbn [length seq combine foldM fst snd].
  assert (Hk' : forall i l', nth_error k i = Some l' -> l' <> 0 ->
                             is_Some (differences !! Z.of_nat (S a + i))).
  { intros i l' Hi Hl'. replace (S a + i) with (a + S i) by lia.
    apply (Hk (S i) l'); assumption. }
  destruct (Nat.eqb_spec l 0) as [->|Hl0]; cbn [bind]; [now apply IH|].
  assert (Hd : exists d, differences_get differences a = Ok d).
  { destruct (Hk 0 l eq_refl Hl0) as [d Hd]. rewrite Nat.add_0_r in Hd.
    exists d. unfold differences_get. now rewrite Hd. }
  destruct Hd as [d ->].
  destruct (l =? 1); cbn [bind]; now apply IH.
Qed.

Lemma print_loop_total (st : style) (differences : gmap Z string)
    (dic : list (list nat * nat)) (jks : list (nat * list nat)) :
  (forall j k, In (j, k) jks ->
               exists txt, term_text st differences dic k = Ok txt) ->
  outcome (print_loop st differences dic jks) = None /\
  length (yields (print_loop st differences dic jks)) = length jks.
Proof.
  induction jks as [|[j k] jks IH]; intros H; [split; reflexivity|].
  cbn [print_loop]. destruct (H j k (or_introl eq_refl)) as [txt ->].
  destruct IH as [IH1 IH2]; [intros j' k' Hin; apply (H j' k'); now right|].
  cbn [outcome yields length]. split; [exact IH1 | now rewrite IH2].
Qed.

Lemma insert_by_value_perm {K : Type} (x : K * nat) (l : list (K * nat)) :
  Permutation (x :: l) (insert_by_value x l).
Proof.
  induction l as [|y l IH]; [reflexivity|]. simpl.
  destruct (snd x <? snd y); [reflexivity|].
  rewrite perm_swap. now constructor.
Qed.

Lemma sorted_by_value_perm {K : Type} (items : list (K * nat)) :
  Permutation items (sorted_by_value items).
Proof.
  unfold sorted_by_value.
  assert (H : forall acc, Permutation (acc ++ items)
                (fold_left (fun acc x => insert_by_value x acc) items acc)).
  { induction items as [|x items IH]; intros acc; simpl.
    - now rewrite app_nil_r.
    - rewrite <- IH, <- insert_by_value_perm. simpl. symmetry.
      apply Permutation_middle. }
  exact (H []).
Qed.

Lemma pydict_set_fresh {K V : Type} `{EqDecision K} (d : list (K * V)) (k : K)
    (v : V) :
  ~ In k (map fst d) -> pydict_set d k v = d ++ [(k, v)].
Proof.
  induction d as [|[k' v'] d IH]; simpl; [reflexivity|]. intros Hn.
  rewrite decide_False by tauto. f_equal. apply IH. tauto.
Qed.

Lemma ordered_dict_NoDup {K V : Type} `{EqDecision K} (pairs : list (K * V)) :
  NoDup (map fst pairs) -> ordered_dict pairs = pairs.
Proof.
  unfold ordered_dict.
  assert (H' : forall d, NoDup (map fst (d ++ pairs)) ->
             fold_left (fun d kv => pydict_set d (fst kv) (snd kv)) pairs d
             = d ++ pairs).
  { induction pairs as [|[k v] pairs IH]; intros d Hnd; simpl.
    - now rewrite app_nil_r.
    - rewrite pydict_set_fresh.
      + rewrite IH; rewrite <- app_assoc; [reflexivity | exact Hnd].
      + rewrite map_app in Hnd. simpl in Hnd.
        apply NoDup_remove_2 in Hnd. rewrite in_app_iff in Hnd. tauto. }
  intros Hnd. exact (H' [] Hnd).
Qed.

Lemma count_nonzero_In (l : list Z) (z : Z) : count l z <> 0 -> In z l.
Proof.
  induction l as [|x l IH]; [intros H; now contradiction H|].
  rewrite count_cons. destruct (Z.eqb_spec z x) as [->|Hne]; [now left|].
  intros H. right. apply IH. lia.
Qed.

Lemma lags_In (m : nat) (el l : list Z) (z : Z) :
  lags m el = Ok l -> In z l ->
  exists a b, In a el /\ In b el /\ z = Z.abs (a - b).
Proof.
  unfold lags. rewrite mapM_Forall2. intros H Hz.
  destruct (Forall2_In_r _ _ _ _ H Hz) as [j [_ Hj]].
  unfold getitem in Hj.
  destruct (nth_error el (j + 1)) as [a|] eqn:Ea; [|discriminate].
  destruct (nth_error el j) as [b|] eqn:Eb; [|discriminate].
  simpl in Hj. injection Hj as <-. exists a, b.
  split; [eapply nth_error_In; eassumption|].
  split; [eapply nth_error_In; eassumption | reflexivity].
Qed.

Lemma shape_nonzero_lag (m : nat) (el : list Z) (sh : list nat) (i c : nat) :
  shape_of m el = Ok sh -> nth_error sh i = Some c -> c <> 0 ->
  exists a b, In a el /\ In b el /\ Z.of_nat i = Z.abs (a - b).
Proof.
  unfold shape_of. destruct (lags m el) as [l|] eqn:El; [|discriminate].
  cbn [bind]. destruct (max_list l) as [M|]; [|discriminate]. cbn [bind].
  intros [= <-] Hi Hc. unfold rangeZ in Hi. rewrite !nth_error_map in Hi.
  destruct (nth_error (seq 0 (Z.to_nat (M + 1))) i) as [i'|] eqn:Ei;
    [|discriminate].
  simpl in Hi. injection Hi as <-.
  assert (i' = i).
  { assert (Hlt : i < Z.to_nat (M + 1)).
    { rewrite <- (length_seq (Z.to_nat (M + 1)) 0). apply nth_error_Some.
      congruence. }
    apply nth_error_nth with (d := 0) in Ei. rewrite seq_nth in Ei by exact Hlt.
    now rewrite <- Ei. }
  subst i'. apply count_nonzero_In in Hc. exact (lags_In m el l _ El Hc).
Qed.

Lemma isserlis_yield_elements {A : Type} (set_ el : list A) (a : A) :
  In el (yields (isserlis set_)) -> In a el -> In a set_.
Proof.
  intros H Ha. apply isserlis_yield_inv in H.
  destruct H as [_ [_ [p [Hp [_ Hr]]]]].
  pose proof (rearrange_perm set_ (length set_) p eq_refl Hp el Hr) as Hperm.
  exact (Permutation_in a (Permutation_sym Hperm) Ha).
Qed.

Lemma term_text_total (st : style) (differences : gmap Z string)
    (dic : list (list nat * nat)) (k : list nat) :
  In k (map fst dic) ->
  (forall i l, nth_error k i = Some l -> l <> 0 ->
               is_Some (differences !! Z.of_nat i)) ->
  exists txt, term_text st differences dic k = Ok txt.
Proof.
  intros Hk Hlags. unfold term_text, enumerate.
  destruct (pydict_get_total dic k Hk) as [m ->]. cbn [bind].
  apply (term_loop_total differences k 0). exact Hlags.
Qed.

Lemma beautiful_print_counts (set_elements nums : list Z) (option : string) :
  length set_elements <= 6 ->
  (forall x, In x nums -> In x set_elements) ->
  outcome (beautiful_print set_elements
             (counts_tuple (yields (isserlis_stationary nums))) option) = None /\
  length (yields (beautiful_print set_elements
                    (counts_tuple (yields (isserlis_stationary nums))) option))
  = length (counts_tuple (yields (isserlis_stationary nums))).
Proof.
  intros Hlen Hsub.
  set (shapes := yields (isserlis_stationary nums)).
  destruct (counts_tuple_spec shapes) as [Hnd [Hkeys _]].
  destruct (style_lengths option) as [Hs Hs2].
  destruct (differences_of_spec (style_of option) set_elements)
    as [D [HD HDk]]; [lia | lia |].
  unfold beautiful_print. rewrite HD.
  pose proof (sorted_by_value_perm (counts_tuple shapes)) as Hperm.
  assert (Hnd' : NoDup (map fst (sorted_by_value (counts_tuple shapes)))).
  { eapply Permutation_NoDup; [|exact Hnd]. now apply Permutation_map. }
  rewrite (ordered_dict_NoDup _ Hnd').
  destruct (print_loop_total (style_of option) D
              (sorted_by_value (counts_tuple shapes))
              (enumerate (map fst (sorted_by_value (counts_tuple shapes)))))
    as [Ho Hy].
  - intros j k Hjk. unfold enumerate in Hjk. apply in_combine_r in Hjk.
    apply term_text_total; [exact Hjk|].
    assert (Hk : In k shapes).
    { apply Hkeys.
      exact (Permutation_in k (Permutation_sym (Permutation_map fst Hperm)) Hjk). }
    apply stationary_loop_inv in Hk. destruct Hk as [el [Hel Hsh]].
    intros i l Hi Hl.
    destruct (shape_nonzero_lag _ _ _ _ _ Hsh Hi Hl) as [a [b [Ha [Hb ->]]]].
    apply HDk; apply Hsub; eapply isserlis_yield_elements; eassumption.
  - split; [exact Ho|]. rewrite Hy. unfold enumerate.
    rewrite length_combine, length_seq, Nat.min_id, length_map.
    symmetry. now apply Permutation_length.
Qed.

(** X12: printing what [counts] made of [isserlis_stationary] raises
    nothing. When the values of [nums] are among at most six distinct
    [set_elements] and [counts(isserlis_stationary(nums))] returned [dic],
    [beautiful_print] finds a label for every lag of every shape (no
    KeyError, no IndexError) and prints exactly one line per key of [dic]. *)
Theorem beautiful_print_pipeline (set_elements nums : list Z)
    (dic : list (list nat * nat)) (option : string) :
  length set_elements <= 6 ->
  (forall x, In x nums -> In x set_elements) ->
  counts hashable_tuple (isserlis_stationary nums) = Ok dic ->
  outcome (beautiful_print set_elements dic option) = None /\
  length (yields (beautiful_print set_elements dic option)) = length dic.
Proof.
  intros Hlen Hsub Hc.
  apply counts_hashable_inv in Hc; [|reflexivity]. destruct Hc as [_ ->].
  now apply beautiful_print_counts.
Qed.

Lemma beautiful_print_pipeline_witness :
  length [0; 1]%Z <= 6 /\
  (forall x, In x [0; 0; 1; 1]%Z -> In x [0; 1]%Z) /\
  counts hashable_tuple (isserlis_stationary [0; 0; 1; 1]%Z)
  = Ok [([2], 1); ([0; 2], 2)] /\
  outcome (beautiful_print [0; 1]%Z [([2], 1); ([0; 2], 2)] "Screen") = None /\
  length (yields (beautiful_print [0; 1]%Z [([2], 1); ([0; 2], 2)] "Screen"))
  = length [([2], 1); ([0; 2], 2)].
Proof.
  assert (Hlen : length [0; 1]%Z <= 6) by (simpl; repeat constructor).
  assert (Hsub : forall x, In x [0; 0; 1; 1]%Z -> In x [0; 1]%Z)
    by (intros x; simpl; tauto).
  split; [exact Hlen|]. split; [exact Hsub|]. split; [reflexivity|].
  exact (beautiful_print_pipeline [0; 1]%Z [0; 0; 1; 1]%Z
           [([2], 1); ([0; 2], 2)] "Screen" Hlen Hsub eq_refl).
Defined.

(** The module's own run: the seventeen lines of the docstring, up to the
    order of terms with the same coefficient (the docstring was printed from
    a dictionary without insertion order) and the space that [print] puts
    before the first term. *)
Example docstring_lines :
  screen_lines [0; 0; 1; 1; 3; 3; 7; 7]%Z
  = [" s(0)^4  ";
     "+  2*s(0)^2s(t_3-t_2)^2  ";
     "+  2*s(0)^2s(t_2-t_1)^2  ";
     "+  2*s(0)^2s(t_3-t_1)^2  ";
     "+  2*s(0)^2s(t_1)^2  ";
     "+  2*s(0)^2s(t_2)^2  ";
     "+  2*s(0)^2s(t_3)^2  ";
     "+  4*s(t_1)^2s(t_3-t_2)^2  ";
     "+  4*s(t_2)^2s(t_3-t_1)^2  ";
     "+  4*s(t_2-t_1)^2s(t_3)^2  ";
     "+  8*s(0)s(t_2-t_1)s(t_3-t_2)s(t_3-t_1)  ";
     "+  8*s(0)s(t_1)s(t_2-t_1)s(t_2)  ";
     "+  8*s(0)s(t_1)s(t_3-t_1)s(t_3)  ";
     "+  8*s(0)s(t_2)s(t_3-t_2)s(t_3)  ";
     "+  16*s(t_1)s(t_2)s(t_3-t_2)s(t_3-t_1)  ";
     "+  16*s(t_1)s(t_2-t_1)s(t_3-t_2)s(t_3)  ";
     "+  16*s(t_2-t_1)s(t_2)s(t_3-t_1)s(t_3)  "]%string.
Proof. vm_compute. reflexivity. Qed.

(** ** Which label a difference gets *)

Lemma differences_inner_prov (st : style) (k : nat) (i : Z) (rest : list Z)
    (l0 : nat) (d d' : gmap Z string) :
  foldM (fun d lj =>
           let* a := getitem (s st) (k + fst lj + 1) in
           let* b := getitem (s2 st) k in
           Ok (<[Z.abs (snd lj - i) := cov st +:+ "(" +:+ a +:+ b +:+ ")"]> d))
        (combine (seq l0 (length rest)) rest) d = Ok d' ->
  forall z v, d' !! z = Some v ->
    d !! z = Some v \/
    exists l j a b,
      nth_error rest l = Some j /\ z = Z.abs (j - i) /\
      getitem (s st) (k + (l0 + l) + 1) = Ok a /\ getitem (s2 st) k = Ok b /\
      v = cov st +:+ "(" +:+ a +:+ b +:+ ")".
Proof.
  set (f := fun (d : gmap Z string) (lj : nat * Z) =>
              let* a := getitem (s st) (k + fst lj + 1) in
              let* b := getitem (s2 st) k in
              Ok (<[Z.abs (snd lj - i) := cov st +:+ "(" +:+ a +:+ b +:+ ")"]> d)).
  revert l0 d. induction rest as [|j rest IH]; intros l0 d H z v Hz.
  - simpl in H. injection H as <-. now left.
  - cbn [length seq combine foldM] in H.
    destruct (f d (l0, j)) as [d1|] eqn:Hf; [|discriminate]. cbn [bind] in H.
    unfold f in Hf. cbn [fst snd] in Hf.
    destruct (getitem (s st) (k + l0 + 1)) as [a|] eqn:Ha; [|discriminate].
    destruct (getitem (s2 st) k) as [b|] eqn:Hb; [|discriminate].
    cbn [bind] in Hf. injection Hf as <-.
    destruct (IH (S l0) _ H z v Hz) as [Hd|[l [j' [a' [b' [Hl [-> [Ha' [Hb' ->]]]]]]]]].
    + destruct (decide (Z.abs (j - i) = z)) as [<-|Hne].
      * rewrite lookup_insert_eq in Hd. injection Hd as <-. right.
        exists 0, j, a, b. rewrite Nat.add_0_r. auto.
      * rewrite lookup_insert_ne in Hd by exact Hne. now left.
    + right. exists (S l), j', a', b'.
      replace (l0 + S l) with (S l0 + l) by lia. auto.
Qed.

Lemma differences_outer_prov (st : style) (set_ rest : list Z) (k0 : nat)
    (d d' : gmap Z string) :
  rest = skipn k0 set_ ->
  foldM (fun d ki =>
           differences_inner st (fst ki) (snd ki) (skipn (fst ki + 1) set_) d)
        (combine (seq k0 (length rest)) rest) d = Ok d' ->
  forall z v, d' !! z = Some v ->
    d !! z = Some v \/
    exists k k' x x' a b,
      k < k' /\ nth_error set_ k = Some x /\ nth_error set_ k' = Some x' /\
      z = Z.abs (x' - x) /\
      getitem (s st) k' = Ok a /\ getitem (s2 st) k = Ok b /\
      v = cov st +:+ "(" +:+ a +:+ b +:+ ")".
Proof.
  set (f := fun (d : gmap Z string) (ki : nat * Z) =>
              differences_inner st (fst ki) (snd ki) (skipn (fst ki + 1) set_) d).
  revert k0 d. induction rest as [|i rest IH]; intros k0 d Hrest H z v Hz.
  - simpl in H. injection H as <-. now left.
  - cbn [length seq combine foldM] in H.
    destruct (f d (k0, i)) as [d1|] eqn:Hf; [|discriminate]. cbn [bind] in H.
    assert (Hi : nth_error set_ k0 = Some i).
    { rewrite <- (Nat.add_0_r k0), <- nth_error_skipn, <- Hrest. reflexivity. }
    assert (Hrest' : rest = skipn (S k0) set_).
    { replace (S k0) with (1 + k0) by lia. rewrite <- skipn_skipn, <- Hrest.
      reflexivity. }
    destruct (IH (S k0) d1 Hrest' H z v Hz) as [Hd|Hex]; [|now right].
    unfold f, differences_inner, enumerate in Hf. cbn [fst snd] in Hf.
    destruct (differences_inner_prov st k0 i _ 0 d d1 Hf z v Hd)
      as [Hd0|[l [j [a [b [Hl [-> [Ha [Hb ->]]]]]]]]]; [now left|].
    right. exists k0, (k0 + 1 + l), i, j, a, b.
    rewrite nth_error_skipn in Hl.
    replace (k0 + (0 + l) + 1) with (k0 + 1 + l) in Ha by lia.
    repeat split; try assumption; try reflexivity. lia.
Qed.

(** X13: when the distinct values of [set_] number at most six and no two
    pairs of them have the same absolute difference (as for the labels
    [2**k - 1]), no entry of the table of differences is overwritten: the
    difference of the values at positions [k < k'] is printed with the label
    [cov(s[k'] s2[k])] of that pair, and the lag [0] with [cov(0)]. *)
Theorem differences_labels (option : string) (set_elements : list Z) :
  length set_elements <= 6 ->
  NoDup set_elements ->
  (forall k k' l l' x x' y y',
      k < k' -> l < l' ->
      nth_error set_elements k = Some x -> nth_error set_elements k' = Some x' ->
      nth_error set_elements l = Some y -> nth_error set_elements l' = Some y' ->
      Z.abs (x' - x) = Z.abs (y' - y) -> k = l /\ k' = l') ->
  exists differences,
    differences_of (style_of option) set_elements = Ok differences /\
    differences !! 0%Z = Some (cov (style_of option) +:+ "(0)") /\
    forall k k' x x' a b,
      k < k' ->
      nth_error set_elements k = Some x -> nth_error set_elements k' = Some x' ->
      nth_error (s (style_of option)) k' = Some a ->
      nth_error (s2 (style_of option)) k = Some b ->
      differences !! Z.abs (x' - x)
      = Some (cov (style_of option) +:+ "(" +:+ a +:+ b +:+ ")").
Proof.
  intros Hlen Hnd Huniq. set (st := style_of option).
  destruct (style_lengths option) as [Hs Hs2]. fold st in Hs, Hs2.
  destruct (differences_outer_spec st set_elements set_elements 0 ∅)
    as [d [E [_ Hkeys]]]; [lia | lia | reflexivity |].
  unfold differences_of, enumerate. rewrite E. cbn [bind].
  eexists. split; [reflexivity|]. split; [apply lookup_insert_eq|].
  intros k k' x x' a b Hkk Hx Hx' Ha Hb.
  assert (Hne : Z.abs (x' - x) <> 0%Z).
  { intros H0. assert (x' = x) by lia. subst x'.
    rewrite NoDup_nth_error in Hnd. assert (k = k'); [|lia].
    apply Hnd; [|congruence]. apply nth_error_Some. congruence. }
  rewrite lookup_insert_ne by congruence.
  destruct (Hkeys k k' x x') as [v Hv]; try assumption; [lia|].
  rewrite Hv. f_equal.
  destruct (differences_outer_prov st set_elements set_elements 0 ∅ d eq_refl E
              _ _ Hv) as [H0|[l [l' [y [y' [a' [b' [Hll [Hy [Hy' [Hz [Ha' [Hb' ->]]]]]]]]]]]]].
  - rewrite lookup_empty in H0. discriminate.
  - destruct (Huniq k k' l l' x x' y y') as [-> ->]; try assumption.
    unfold getitem in Ha', Hb'. rewrite Ha in Ha'. rewrite Hb in Hb'.
    injection Ha' as <-. injection Hb' as <-. reflexivity.
Qed.

Lemma differences_labels_witness :
  length [0; 1; 3]%Z <= 6 /\ NoDup [0; 1; 3]%Z /\
  exists differences,
    differences_of (style_of "Screen") [0; 1; 3]%Z = Ok differences /\
    differences !! 0%Z = Some (cov (style_of "Screen") +:+ "(0)") /\
    forall k k' x x' a b,
      k < k' ->
      nth_error [0; 1; 3]%Z k = Some x -> nth_error [0; 1; 3]%Z k' = Some x' ->
      nth_error (s (style_of "Screen")) k' = Some a ->
      nth_error (s2 (style_of "Screen")) k = Some b ->
      differences !! Z.abs (x' - x)
      = Some (cov (style_of "Screen") +:+ "(" +:+ a +:+ b +:+ ")").
Proof.
  assert (Hlen : length [0; 1; 3]%Z <= 6) by (simpl; repeat constructor).
  assert (Hnd : NoDup [0; 1; 3]%Z)
    by (repeat constructor; simpl; intuition discriminate).
  assert (Hu : forall k k' l l' x x' y y',
             k < k' -> l < l' ->
             nth_error [0; 1; 3]%Z k = Some x -> nth_error [0; 1; 3]%Z k' = Some x' ->
             nth_error [0; 1; 3]%Z l = Some y -> nth_error [0; 1; 3]%Z l' = Some y' ->
             Z.abs (x' - x) = Z.abs (y' - y) -> k = l /\ k' = l').
  { intros k k' l l' x x' y y' Hkk Hll Hx Hx' Hy Hy' E.
    assert (Hk' : k' < 3)
      by (apply (proj1 (nth_error_Some [0; 1; 3]%Z k')); congruence).
    assert (Hl' : l' < 3)
      by (apply (proj1 (nth_error_Some [0; 1; 3]%Z l')); congruence).
    destruct k as [|[|k]], k' as [|[|[|k']]]; try lia;
      destruct l as [|[|l]], l' as [|[|[|l']]]; try lia;
      simpl in Hx, Hx', Hy, Hy';
      injection Hx as <-; injection Hx' as <-;
      injection Hy as <-; injection Hy' as <-;
      first [ split; reflexivity | discriminate E ]. }
  split; [exact Hlen|]. split; [exact Hnd|].
  exact (differences_labels "Screen" [0; 1; 3]%Z Hlen Hnd Hu).
Defined.

(** In the [Screen] tables the fifth and sixth entries of [s2] carry no minus
    sign, unlike in the [.tex] tables. *)
Example screen_label_fifth :
  match differences_of (style_of "Screen") [0; 1; 3; 7; 15; 31]%Z,
        differences_of (style_of ".tex") [0; 1; 3; 7; 15; 31]%Z with
  | Ok d, Ok d' =>
      d !! 16%Z = Some "s(t_5t_4)" /\ d' !! 16%Z = Some "s_X(\tau_5-\tau_4)"
  | _, _ => False
  end.
Proof. vm_compute. split; reflexivity. Qed.

(** * The script's run *)

(** X14: the script runs through on any list of tokens of even length
    [2n >= 2] with at most six distinct tokens: the labelling, the counting
    and the printing raise nothing, the multiplicities counted add up to
    [(2n-1)!!], and one line is printed per distinct shape. *)
Theorem script_runs (token_order : list string) (int_order : list Z)
    (set_analytic : list string) (n : nat) :
  NoDup token_order ->
  (forall x, In x token_order <-> In x set_analytic) ->
  length token_order <= 6 ->
  0 < n -> length set_analytic = 2 * n ->
  exists set_to_nbs dic,
    isserlis_stationary_analytical token_order set_analytic
    = Ok (set_to_nbs, isserlis_stationary set_to_nbs) /\
    counts hashable_tuple (isserlis_stationary set_to_nbs) = Ok dic /\
    list_sum (map snd dic) = dfact (2 * n - 1) /\
    (NoDup int_order -> (forall x, In x int_order <-> In x set_to_nbs) ->
     outcome (script token_order int_order set_analytic) = None /\
     length (yields (script token_order int_order set_analytic)) = length dic).
Proof.
  intros Hnd Hin Hsix Hn Hlen.
  destruct (analytical_spec token_order set_analytic Hnd) as [nums [E HF]];
    [intros x Hx; now apply Hin|].
  assert (Hnums : length nums = 2 * n)
    by (rewrite <- (Forall2_length HF); exact Hlen).
  pose proof (even_double n) as He. rewrite <- Hnums in He.
  destruct (isserlis_stationary_spec nums He) as [Ho Hy]; [lia|].
  exists nums, (counts_tuple (yields (isserlis_stationary nums))).
  assert (Hc : counts hashable_tuple (isserlis_stationary nums)
               = Ok (counts_tuple (yields (isserlis_stationary nums))))
    by now apply counts_hashable.
  split; [exact E|]. split; [exact Hc|]. split.
  - destruct (counts_tuple_spec (yields (isserlis_stationary nums)))
      as [_ [_ [_ Hsum]]].
    rewrite Hsum, <- (Forall2_length Hy). now apply isserlis_yields_count.
  - intros Hnd' Hin'. unfold script. rewrite E, Hc.
    apply beautiful_print_counts; [|intros x Hx; now apply Hin'].
    assert (Hle : length int_order
                  <= length (map (fun k => (2 ^ Z.of_nat k - 1)%Z)
                                 (seq 0 (length token_order)))).
    { apply NoDup_incl_length; [exact Hnd'|].
      intros v Hv. apply Hin' in Hv.
      destruct (Forall2_In_r _ _ _ _ HF Hv) as [x [_ [k [Hk ->]]]].
      apply (in_map (fun k => (2 ^ Z.of_nat k - 1)%Z)), in_seq.
      split; [lia|]. simpl. apply nth_error_Some. congruence. }
    rewrite length_map, length_seq in Hle. lia.
Qed.

Lemma script_runs_witness :
  NoDup ["t"; "t+t_1"]%string /\
  (forall x, In x ["t"; "t+t_1"]%string <-> In x scenario4) /\
  length ["t"; "t+t_1"]%string <= 6 /\ 0 < 2 /\ length scenario4 = 2 * 2 /\
  exists set_to_nbs dic,
    isserlis_stationary_analytical ["t"; "t+t_1"]%string scenario4
    = Ok (set_to_nbs, isserlis_stationary set_to_nbs) /\
    counts hashable_tuple (isserlis_stationary set_to_nbs) = Ok dic /\
    list_sum (map snd dic) = dfact (2 * 2 - 1) /\
    (NoDup [0; 1]%Z -> (forall x, In x [0; 1]%Z <-> In x set_to_nbs) ->
     outcome (script ["t"; "t+t_1"]%string [0; 1]%Z scenario4) = None /\
     length (yields (script ["t"; "t+t_1"]%string [0; 1]%Z scenario4))
     = length dic).
Proof.
  assert (Hnd : NoDup ["t"; "t+t_1"]%string)
    by (repeat constructor; simpl; intuition discriminate).
  assert (Hin : forall x, In x ["t"; "t+t_1"]%string <-> In x scenario4)
    by (intros x; simpl; tauto).
  assert (Hsix : length ["t"; "t+t_1"]%string <= 6)
    by (simpl; repeat constructor).
  split; [exact Hnd|]. split; [exact Hin|]. split; [exact Hsix|].
  split; [exact (Nat.lt_0_succ 1)|]. split; [reflexivity|].
  exact (script_runs ["t"; "t+t_1"]%string [0; 1]%Z scenario4 2
           Hnd Hin Hsix (Nat.lt_0_succ 1) eq_refl).
Defined.

(** The module's own input, with the tokens labelled in their order of
    first occurrence. *)
Example script_set_analytic :
  let set_analytic := ["t"; "t"; "t+t_1"; "t+t_1"; "t+t_2"; "t+t_2";
                       "t+t_3"; "t+t_3"]%string in
  let printed := script ["t"; "t+t_1"; "t+t_2"; "t+t_3"]%string
                        [0; 1; 3; 7]%Z set_analytic in
  outcome printed = None /\ length (yields printed) = 17 /\
  nth_error (yields printed) 0 = Some " s(0)^4  "%string.
Proof. vm_compute. repeat split; reflexivity. Qed.
